(** * comic-panel-splitter: a shallow embedding of [comic_panel_splitter/main.py]

    The development follows the source file top to bottom:
    - [split_into_rows] and [split_into_cols], the row segmenter and its
      reuse on a rotated image;
    - [ComicBookPage] with [from_file], [save] and [split_panels];
    - [ComicBook] with [from_file], [save] and [split_panels].

    Conventions.
    - A Python [str] is the list of the bytes of its UTF-8 encoding
      ([list ascii]): [split], [join], [endswith], comparison by code point
      and the ASCII case mapping used here agree on both views.
    - A Pillow image is its width together with its rows of pixels, top to
      bottom, each row left to right.  The pixel type and the conversion to
      luminance ([Image.convert("L")]) belong to Pillow and are parameters.
    - The quotients the source computes in floating point, [sum / width] and
      [num_white_rows / height], are exact rationals here.  They are only
      compared with [235] and with [0.4]; for dimensions below [2^44] the
      correctly rounded quotient compares with these constants as the exact
      one does.
    - An exception is a value of [exn]; a computation that may raise has type
      [result A].  [save] also changes the files on disk and the archive it
      is given: it returns them with its outcome.
    - Pillow's codec and the two container libraries are outside the
      repository.  The codec is a parameter; of the containers the model
      keeps the list of entries, in physical order, whether the archive was
      opened for reading or for writing, and what [zipfile] and [rarfile]
      do with it. *)

From Stdlib Require Import Ascii String DecimalString DecimalNat Decimal.
From Stdlib Require Import Arith ZArith QArith Lia Bool.
From Stdlib Require Import Sorting.Sorted Sorting.Permutation Sorting.Mergesort.
From Stdlib Require Import List.
Import ListNotations.

#[local] Close Scope Q_scope.
#[local] Close Scope string_scope.
#[local] Open Scope nat_scope.
#[local] Open Scope list_scope.

Set Implicit Arguments.

(** ** Python values *)

Abbreviation str := (list ascii).

Definition lit (s : string) : str := list_ascii_of_string s.

Definition str_eqb (a b : str) : bool :=
  if list_eq_dec ascii_dec a b then true else false.

(** The exceptions of the program.  [ArchiveError] is what a container
    library raises for a file it cannot open as an archive; [OSError] is
    what Pillow raises for a file it identifies but cannot read to the
    end. *)
Inductive exn : Type :=
| ValueError (msg : str)
| IndexError
| ZeroDivisionError
| ArchiveError
| NotImplementedError
| UnidentifiedImageError
| OSError (msg : str).

Inductive result (A : Type) : Type :=
| Ok (a : A)
| Raise (e : exn).

Arguments Ok {A} a.
Arguments Raise {A} e.

Definition bind {A B} (m : result A) (k : A -> result B) : result B :=
  match m with
  | Ok a => k a
  | Raise e => Raise e
  end.

Notation "x <- m ;; k" := (bind m (fun x => k))
  (at level 61, m at next level, right associativity).

(** A comprehension whose body may raise: elements are evaluated left to
    right and the first exception ends the evaluation. *)
Fixpoint mapM {A B} (f : A -> result B) (l : list A) : result (list B) :=
  match l with
  | [] => Ok []
  | a :: l' => b <- f a ;; bs <- mapM f l' ;; Ok (b :: bs)
  end.

(** [enumerate(l)] *)
Definition enumerate {A} (l : list A) : list (nat * A) :=
  combine (seq 0 (length l)) l.

(** [enumerate(l, start)] *)
Definition enumerate_from {A} (s : nat) (l : list A) : list (nat * A) :=
  combine (seq s (length l)) l.

(** [a / b] on integers: true division, [ZeroDivisionError] on [b = 0]. *)
Definition truediv (a b : Z) : result Q :=
  if (b =? 0)%Z then Raise ZeroDivisionError
  else Ok (inject_Z a / inject_Z b)%Q.

Definition Qlt_bool (a b : Q) : bool := negb (Qle_bool b a).

(** [l[i]] and [l[i] = v] with Python's negative indices. *)
Definition norm_index (len : nat) (i : Z) : result nat :=
  let j := if (i <? 0)%Z then (Z.of_nat len + i)%Z else i in
  if ((j <? 0) || (Z.of_nat len <=? j))%Z then Raise IndexError
  else Ok (Z.to_nat j).

Definition getitem {A} (d : A) (l : list A) (i : Z) : result A :=
  j <- norm_index (length l) i ;; Ok (nth j l d).

Definition setitem {A} (l : list A) (i : Z) (v : A) : result (list A) :=
  j <- norm_index (length l) i ;; Ok (firstn j l ++ v :: skipn (S j) l).

(** [l[a : a + k]] for [0 <= a] and [0 <= k] *)
Definition slice {A} (a k : nat) (l : list A) : list A :=
  firstn k (skipn a l).

(** *** Strings *)

(** [s.split(sep)] for a one-character separator. *)
Fixpoint split (sep : ascii) (s : str) : list str :=
  match s with
  | [] => [[]]
  | c :: s' =>
      if Ascii.eqb c sep then [] :: split sep s'
      else match split sep s' with
           | field :: fields => (c :: field) :: fields
           | [] => [[c]]
           end
  end.

(** [sep.join(fields)] *)
Fixpoint join (sep : ascii) (fields : list str) : str :=
  match fields with
  | [] => []
  | [field] => field
  | field :: fields' => field ++ sep :: join sep fields'
  end.

(** [s.endswith(suffix)] *)
Definition endswith (s suffix : str) : bool :=
  str_eqb (skipn (length s - length suffix) s) suffix.

Definition upper_char (c : ascii) : ascii :=
  let n := nat_of_ascii c in
  if (97 <=? n) && (n <=? 122) then ascii_of_nat (n - 32) else c.

(** [s.upper()] on the letters [a] to [z].  [ComicBookPage.save] compares
    the result with [JPG] and [JPEG], which no other letter maps into, so the
    test is that of [str.upper]; for an extension with a cased letter outside
    ASCII the text of the [ValueError] shows that letter unchanged. *)
Definition upper (s : str) : str := map upper_char s.

(** [f"{n:04d}"] for [n >= 0]: decimal, padded with zeros to four digits. *)
Definition format_04d (n : nat) : str :=
  let digits := lit (NilZero.string_of_uint (Nat.to_uint n)) in
  repeat "0"%char (4 - length digits) ++ digits.

(** Comparison of strings, as [sorted] uses it: code point by code point, a
    proper prefix first. *)
Fixpoint str_leb (a b : str) : bool :=
  match a, b with
  | [], _ => true
  | _ :: _, [] => false
  | c :: a', d :: b' =>
      if Ascii.eqb c d then str_leb a' b' else Ascii.ltb c d
  end.

(** [sorted(names)] *)
Module StrOrder <: Orders.TotalLeBool.
Definition t := str.
Definition leb := str_leb.
Lemma leb_total : forall a b, leb a b = true \/ leb b a = true.
Proof.
    unfold leb. induction a as [|c a IH]; intros [|d b]; simpl; auto.
    destruct (Ascii.eqb c d) eqn:E.
    - rewrite Ascii.eqb_sym, E. apply IH.
    - rewrite Ascii.eqb_sym, E. unfold Ascii.ltb.
      pose proof (Ascii.compare_antisym c d) as H.
      destruct (Ascii.compare c d) eqn:C;
        destruct (Ascii.compare d c) eqn:D; simpl in H;
        try discriminate; auto.
      apply Ascii.compare_eq_iff in C. subst.
      rewrite Ascii.eqb_refl in E. discriminate.
Qed.
End StrOrder.

Module StrSort := Sort StrOrder.

Definition sorted (names : list str) : list str := StrSort.sort names.

(** ** Images *)

Section Imaging.

Variable Pixel : Type.

(** [luma p] is the value [image.convert("L").getpixel] returns for a pixel
    whose colour is [p]. *)
Variable luma : Pixel -> Z.

Record Image : Type := mkImage {
  size_w : nat;
  data : list (list Pixel)
}.

Definition size_h (image : Image) : nat := length (data image).

(** What every Pillow image satisfies: a full rectangle of pixels. *)
Definition rectangular (image : Image) : Prop :=
  Forall (fun row => length row = size_w image) (data image).

(** An image as a decoder produces it: rectangular, with at least one pixel. *)
Definition wf_image (image : Image) : Prop :=
  rectangular image /\ 0 < size_w image /\ 0 < size_h image.

(** [image.crop((left, upper, right, lower))].  Every box the program uses
    lies inside the image, so Pillow's padding outside of it never shows. *)
Definition crop (image : Image) (box : nat * nat * nat * nat) : Image :=
  let '(left_, upper, right_, lower) := box in
  mkImage (right_ - left_)
    (map (slice left_ (right_ - left_))
       (slice upper (lower - upper) (data image))).

Fixpoint zip_cons (col : list Pixel) (rows : list (list Pixel))
  : list (list Pixel) :=
  match col, rows with
  | p :: col', row :: rows' => (p :: row) :: zip_cons col' rows'
  | _, _ => []
  end.

(** The columns of a [w]-wide grid, left to right, each top to bottom. *)
Fixpoint columns (w : nat) (rows : list (list Pixel)) : list (list Pixel) :=
  match rows with
  | [] => repeat [] w
  | row :: rows' => zip_cons row (columns w rows')
  end.

(** [image.transpose(Image.ROTATE_90)]: a quarter turn counter-clockwise.
    The right edge becomes the top edge. *)
Definition ROTATE_90 (image : Image) : Image :=
  mkImage (size_h image) (rev (columns (size_w image) (data image))).

(** [image.transpose(Image.ROTATE_270)]: a quarter turn clockwise.
    The left edge becomes the top edge. *)
Definition ROTATE_270 (image : Image) : Image :=
  mkImage (size_h image)
    (map (@rev Pixel) (columns (size_w image) (data image))).

(** ** [split_into_rows] *)

Definition WHITE_THRESHOLD : Q := inject_Z 235.
Definition PANEL_WIDTH_THRESHOLD : nat := 30.
Definition WHITE_PAGE_NUM_WHITE_ROWS_THRESHOLD : Q := (4 # 10)%Q.

Definition is_white (z : Q) : bool := Qle_bool WHITE_THRESHOLD z.

Definition row_sum (row : list Pixel) : Z :=
  fold_right Z.add 0%Z (map luma row).

(** The list [y_avg_sum]: one mean luminance per row. *)
Definition y_avg_sum_of (image : Image) : result (list Q) :=
  mapM (fun row => truediv (row_sum row) (Z.of_nat (size_w image)))
    (data image).

(** The [for y in range(image_bw.size[1])] loop, from row [y] on.  [zs] is
    the part of [y_avg_sum] not yet visited; the state is the pair
    [(y_prev_white, result)].  [y_prev_white <= y] throughout, so the
    truncated subtraction is the integer one. *)
Fixpoint scan (image : Image) (zs : list Q) (y y_prev_white : nat)
  (res : list Image) : nat * list Image :=
  match zs with
  | [] => (y_prev_white, res)
  | z :: zs' =>
      if is_white z then
        let res' :=
          if PANEL_WIDTH_THRESHOLD <=? y - y_prev_white
          then res ++ [crop image (0, y_prev_white, size_w image, y)]
          else res in
        scan image zs' (S y) y res'
      else scan image zs' (S y) y_prev_white res
  end.

Definition split_into_rows (image : Image) : result (list Image) :=
  y_avg_sum <- y_avg_sum_of image ;;
  let num_white_rows := length (filter is_white y_avg_sum) in
  frac <- truediv (Z.of_nat num_white_rows) (Z.of_nat (size_h image)) ;;
  if Qlt_bool WHITE_PAGE_NUM_WHITE_ROWS_THRESHOLD frac then Ok [image]
  else
    let '(y_prev_white, res) := scan image y_avg_sum 0 0 [] in
    if PANEL_WIDTH_THRESHOLD <=? size_h image - y_prev_white
    then Ok (res ++ [crop image (0, y_prev_white, size_w image, size_h image)])
    else Ok res.

(** ** [split_into_cols] *)

Definition split_into_cols (image : Image) : result (list Image) :=
  panels <- split_into_rows (ROTATE_270 image) ;;
  Ok (map ROTATE_90 panels).

(** ** [ComicBookPage]

    The field [image] is annotated [list[Image.Image]] in the source, but
    [from_file] stores one image in it and [save] and [split_panels] use it
    as one image: a page holds one image. *)

Record ComicBookPage : Type := mkPage {
  image : Image;
  filename : str
}.

(** The bytes of a file or of an archive entry. *)
Definition Bytes := list Byte.byte.

(** Pillow's codec.  [Image_open b] is [Image.open(file)] for a file whose
    content is [b]: an image not yet converted, or an exception, which is
    [UnidentifiedImageError] when no format recognises the content.
    [convert_RGB] is [image.convert("RGB")], which reads the pixels and may
    raise as well; [encode_jpeg] is [image.save(file, "JPEG")]. *)
Variable Opened : Type.
Variable Image_open : Bytes -> result Opened.
Variable convert_RGB : Opened -> result Image.
Variable encode_jpeg : Image -> Bytes.

(** [ComicBookPage.from_file(file)], for an entry [file.name = name] whose
    content is [content]; [Ok None] is the return value [None]. *)
Definition ComicBookPage_from_file (name : str) (content : Bytes)
  : result (option ComicBookPage) :=
  match Image_open content with
  | Raise UnidentifiedImageError => Ok None
  | Raise e => Raise e
  | Ok opened => img <- convert_RGB opened ;; Ok (Some (mkPage img name))
  end.

(** [ComicBookPage.save(file)]: the bytes written to [file], or the
    exception raised before anything is written. *)
Definition ComicBookPage_save (page : ComicBookPage) : result Bytes :=
  last_field <- getitem [] (split "."%char (filename page)) (-1) ;;
  let format := upper last_field in
  if str_eqb format (lit "JPG") || str_eqb format (lit "JPEG")
  then Ok (encode_jpeg (image page))
  else Raise (ValueError (lit "Unknown file format '" ++ format
                            ++ lit "' to save")).

(** The local function [get_new_filename(row, col)] of [split_panels]. *)
Definition get_new_filename (name : str) (row col : nat) : result str :=
  let fields := split "."%char name in
  stem <- getitem [] fields (-2) ;;
  fields' <- setitem fields (-2)
               (stem ++ lit "_" ++ format_04d row
                  ++ lit "_" ++ format_04d col) ;;
  Ok (join "."%char fields').

(** [ComicBookPage.split_panels(self)] *)
Definition ComicBookPage_split_panels (page : ComicBookPage)
  : result (list ComicBookPage) :=
  panel_rows <- split_into_rows (image page) ;;
  grid <- mapM (fun '(row, panel_row) =>
            panel_cols <- split_into_cols panel_row ;;
            mapM (fun '(col, panel_final) =>
              new_filename <- get_new_filename (filename page) row col ;;
              Ok (mkPage panel_final new_filename))
              (enumerate panel_cols))
            (enumerate panel_rows) ;;
  Ok (concat grid).

(** ** Archives

    The two container libraries are seen through what the program uses of
    them.  An archive is the list of its entries in physical order.
    [zipfile] creates and appends; [rarfile] only reads: it raises
    [NotImplementedError] for any mode but ["r"]. *)

Inductive container : Type := Rar | Zip.

Definition Archive := list (str * Bytes).

(** [file.namelist()] *)
Definition namelist (a : Archive) : list str := map fst a.

(** [file.open(name).read()]: the entry the name index holds for [name],
    which is the last one of that name. *)
Definition read_entry (a : Archive) (name : str) : Bytes :=
  match find (fun e => str_eqb (fst e) name) (rev a) with
  | Some e => snd e
  | None => []
  end.

(** A [pathlib.Path], by the two things the program observes of it. *)
Record Path : Type := mkPath {
  path_str : str;
  suffix : str
}.

(** The files on disk that are archives. *)
Definition FS := str -> option (container * Archive).

Definition fs_write (fs : FS) (p : str) (v : container * Archive) : FS :=
  fun q => if str_eqb q p then Some v else fs q.

(** [RarFile(file)] and [ZipFile(file)], opened for reading. *)
Definition open_read (k : container) (p : Path) (fs : FS) : result Archive :=
  match fs (path_str p), k with
  | Some (Rar, a), Rar => Ok a
  | Some (Zip, a), Zip => Ok a
  | _, _ => Raise ArchiveError
  end.

(** The argument [file : Path | RarFile | ZipFile] of [from_file] and
    [save].  [RarFile a] and [ZipFile a] are archives opened for reading,
    the default mode, with the entries [a]; [ZipFileW p a] is a [ZipFile]
    opened in one of the modes that write (["w"], ["x"], ["a"]) on the file
    at the path [p], holding the entries [a]: those of the file it was
    opened on in mode ["a"], and those written since.  [OtherArg t] is a
    value of any other type, [t] being the text of [type(file)]. *)
Inductive FileArg : Type :=
| PathArg (p : Path)
| RarFile (a : Archive)
| ZipFile (a : Archive)
| ZipFileW (p : str) (a : Archive)
| OtherArg (type_repr : str).

(** ** [ComicBook] *)

Record ComicBook : Type := mkBook {
  pages : list ComicBookPage
}.

(** What one [name] of the comprehension in [from_file] contributes: the
    page of the entry, nothing for a directory or for an entry [from_file]
    returns [None] for, or the exception that ends the load. *)
Definition load_entry (a : Archive) (name : str)
  : result (list ComicBookPage) :=
  if negb (endswith name (lit "/")) then
    page <- ComicBookPage_from_file name (read_entry a name) ;;
    Ok (match page with
        | Some page => [page]
        | None => []
        end)
  else Ok [].

(** The [case RarFile() | ZipFile()] branch of [from_file]. *)
Definition ComicBook_from_archive (a : Archive) : result ComicBook :=
  loaded <- mapM (load_entry a) (sorted (namelist a)) ;;
  Ok (mkBook (concat loaded)).

(** [ComicBook.from_file(file)] *)
Definition ComicBook_from_file (file : FileArg) (fs : FS) : result ComicBook :=
  match file with
  | PathArg p =>
      if str_eqb (suffix p) (lit ".cbr") then
        cbr_file <- open_read Rar p fs ;;
        ComicBook_from_archive cbr_file
      else if str_eqb (suffix p) (lit ".cbz") then
        cbz_file <- open_read Zip p fs ;;
        ComicBook_from_archive cbz_file
      else Raise (ValueError (lit "Unknown file format '" ++ suffix p
                                ++ lit "'"))
  | RarFile a | ZipFile a | ZipFileW _ a => ComicBook_from_archive a
  | OtherArg t =>
      Raise (ValueError (lit "Illegal parameter type '" ++ t ++ lit "'"))
  end.

(** The loop of the [case RarFile() | ZipFile()] branch of [save] on a
    [ZipFile] that writes: the entries after the loop, and how the loop
    ended.  Leaving the [with] block closes the entry, also when [page.save]
    raised before writing. *)
Fixpoint save_pages (ps : list ComicBookPage) (a : Archive)
  : Archive * result unit :=
  match ps with
  | [] => (a, Ok tt)
  | page :: ps' =>
      match ComicBookPage_save page with
      | Ok content => save_pages ps' (a ++ [(filename page, content)])
      | Raise e => (a ++ [(filename page, [])], Raise e)
      end
  end.

(** [ComicBook.save(self, file)]: the files on disk and the argument after
    the call, and how the call ended.

    An archive that cannot be written refuses the first entry:
    [file.open(name, "w")] raises [NotImplementedError] on a [RarFile] and
    [ValueError] on a [ZipFile] opened for reading, before anything is
    written.  What is written through a [ZipFile] that writes goes to the
    file behind it, which is an archive of these entries once the [ZipFile]
    is closed; the files returned show that file as it is then.  The path
    branch opens such a [ZipFile] on the path, empty, and closes it. *)
Definition ComicBook_save (book : ComicBook) (file : FileArg) (fs : FS)
  : FS * FileArg * result unit :=
  match file with
  | PathArg p =>
      if str_eqb (suffix p) (lit ".cbr") then
        (fs, file, Raise NotImplementedError)
      else if str_eqb (suffix p) (lit ".cbz") then
        let '(cbz_file, r) := save_pages (pages book) [] in
        (fs_write fs (path_str p) (Zip, cbz_file), file, r)
      else (fs, file, Ok tt)
  | RarFile a =>
      match pages book with
      | [] => (fs, file, Ok tt)
      | _ :: _ => (fs, file, Raise NotImplementedError)
      end
  | ZipFile a =>
      match pages book with
      | [] => (fs, file, Ok tt)
      | _ :: _ =>
          (fs, file,
           Raise (ValueError (lit "write() requires mode 'w', 'x', or 'a'")))
      end
  | ZipFileW p a =>
      let '(a', r) := save_pages (pages book) a in
      (fs_write fs p (Zip, a'), ZipFileW p a', r)
  | OtherArg t =>
      (fs, file,
       Raise (ValueError (lit "Parameter file of type '" ++ t
                            ++ lit "' not supported")))
  end.

(** [ComicBook.split_panels(self)] *)
Definition ComicBook_split_panels (book : ComicBook) : result ComicBook :=
  split <- mapM ComicBookPage_split_panels (pages book) ;;
  Ok (mkBook (concat split)).

(** ** [main]

    [main(input_file, output_file)], for the paths [Path(input_file)] and
    [Path(output_file)]: the files on disk after the run, and how it
    ended. *)
Definition main (input_file output_file : Path) (fs : FS)
  : FS * result unit :=
  match ComicBook_from_file (PathArg input_file) fs with
  | Raise e => (fs, Raise e)
  | Ok comic_book =>
      match ComicBook_split_panels comic_book with
      | Raise e => (fs, Raise e)
      | Ok comic_book' =>
          let '(fs', _, r) :=
            ComicBook_save comic_book' (PathArg output_file) fs in
          (fs', r)
      end
  end.

End Imaging.

Arguments PANEL_WIDTH_THRESHOLD : simpl never.

(** ** An instance for the examples

    RGB pixels with Pillow's ITU-R 601-2 luma transform, and a stand-in codec
    whose files are one-pixel-wide columns of grey levels, one byte a row;
    the empty file is not an image. *)

Record RGB : Type := mkRGB { red : Z; green : Z; blue : Z }.

Definition luma_rgb (p : RGB) : Z :=
  Z.shiftr (red p * 19595 + green p * 38470 + blue p * 7471 + 32768) 16.

Definition BLACK : RGB := mkRGB 0 0 0.
Definition WHITE : RGB := mkRGB 255 255 255.

Definition solid (w h : nat) (p : RGB) : Image RGB :=
  mkImage w (repeat (repeat p w) h).

(** [above a b]: the rows of [a] on top of the rows of [b]. *)
Definition above (a b : Image RGB) : Image RGB :=
  mkImage (size_w a) (data a ++ data b).

(** Sample images: a black tile as thick as a panel, a black strip thinner
    than one, a white sheet, and two black bands around a narrow white gap. *)
Definition tile : Image RGB := solid 30 30 BLACK.
Definition strip : Image RGB := solid 64 20 BLACK.
Definition sheet : Image RGB := solid 2 3 WHITE.
Definition two_bands : Image RGB :=
  above (solid 1 30 BLACK) (above (solid 1 5 WHITE) (solid 1 30 BLACK)).

Definition pillar : Image RGB := solid 20 64 BLACK.
Definition wide_gap : Image RGB :=
  above (solid 1 10 BLACK) (above (solid 1 30 WHITE) (solid 1 60 BLACK)).

(** A black page, forty pixels wide and a hundred high, ruled with a white
    line on every twentieth row. *)
Definition ruled : Image RGB :=
  mkImage 40
    (concat (repeat (repeat (repeat BLACK 40) 19 ++ [repeat WHITE 40]) 5)).

(** A page of four black panels, thirty pixels each way, around white
    gutters of ten pixels. *)
Definition quad : Image RGB :=
  let panels_row := repeat BLACK 30 ++ repeat WHITE 10 ++ repeat BLACK 30 in
  let gutter_row := repeat WHITE 70 in
  mkImage 70
    (repeat panels_row 30 ++ repeat gutter_row 10 ++ repeat panels_row 30).

Definition grey (b : Byte.byte) : RGB :=
  let n := Z.of_nat (Byte.to_nat b) in mkRGB n n n.

Definition column_open (content : Bytes) : result Bytes :=
  match content with
  | [] => Raise UnidentifiedImageError
  | _ :: _ => Ok content
  end.

Definition column_convert (opened : Bytes) : result (Image RGB) :=
  Ok (mkImage 1 (map (fun b => [grey b]) opened)).

(** Sample files: an archive of one page and one text file, stored as
    [in.cbz], and a path with an extension that is not supported. *)
Definition sample_archive : Archive :=
  [(lit "b.jpg", [Byte.x01; Byte.x02]); (lit "a.txt", [])].

(** An archive whose only entry decodes, under a PNG filename. *)
Definition png_archive : Archive := [(lit "a.png", [Byte.x01])].

Definition sample_fs : FS :=
  fun p => if str_eqb p (lit "in.cbz") then Some (Zip, sample_archive)
           else if str_eqb p (lit "png.cbz") then Some (Zip, png_archive)
           else None.

Definition in_cbz : Path := mkPath (lit "in.cbz") (lit ".cbz").
Definition png_cbz : Path := mkPath (lit "png.cbz") (lit ".cbz").
Definition out_cbz : Path := mkPath (lit "out.cbz") (lit ".cbz").
Definition out_zip : Path := mkPath (lit "out.zip") (lit ".zip").

(** Sample books: two pages under one filename, and two pages under two
    filenames with the book they split into. *)
Definition twins : ComicBook RGB :=
  mkBook [mkPage tile (lit "a.jpg"); mkPage tile (lit "a.jpg")].

Definition pair_book : ComicBook RGB :=
  mkBook [mkPage tile (lit "a.jpg"); mkPage tile (lit "b.jpg")].

Definition pair_split : ComicBook RGB :=
  mkBook [mkPage tile (lit "a_0000_0000.jpg");
          mkPage tile (lit "b_0000_0000.jpg")].

Definition column_encode (img : Image RGB) : Bytes :=
  map (fun row =>
         match row with
         | p :: _ =>
             match Byte.of_nat (Z.to_nat (red p)) with
             | Some b => b
             | None => Byte.x00
             end
         | [] => Byte.x00
         end) (data img).

(** A second stand-in codec, whose files are stacks of tiles thirty pixels
    each way, one byte a tile, and a conversion that finds a file truncated
    when its first byte is zero. *)
Definition tiles_convert (opened : Bytes) : result (Image RGB) :=
  Ok (mkImage 30
        (concat (map (fun b => repeat (repeat (grey b) 30) 30) opened))).

Definition tiles_encode (img : Image RGB) : Bytes :=
  column_encode
    (mkImage (size_w img)
       (map (fun i => nth (30 * i) (data img) []) (seq 0 (size_h img / 30)))).

Definition strict_convert (opened : Bytes) : result (Image RGB) :=
  match opened with
  | Byte.x00 :: _ => Raise (OSError (lit "image file is truncated"))
  | _ => column_convert opened
  end.

(** An archive of two entries [Image.open] identifies, the second of which
    is truncated. *)
Definition truncated_archive : Archive :=
  [(lit "a.jpg", [Byte.x01]); (lit "c.jpg", [Byte.x00])].

(** A comic of two pages and a directory, stored as [comic.cbr]: the page
    [p1.jpg] is a black, a white and a black tile, the page [p2.jpg] one
    black tile. *)
Definition comic_archive : Archive :=
  [(lit "p2.jpg", [Byte.x00]);
   (lit "p1.jpg", [Byte.x00; Byte.xff; Byte.x00]);
   (lit "art/", [])].

Definition comic_fs : FS :=
  fun p => if str_eqb p (lit "comic.cbr") then Some (Rar, comic_archive)
           else None.

Definition comic_cbr : Path := mkPath (lit "comic.cbr") (lit ".cbr").

(** The page of four panels and the pages it splits into. *)
Definition quad_page : ComicBookPage RGB := mkPage quad (lit "q.jpg").

Definition quad_split : list (ComicBookPage RGB) :=
  [mkPage (crop quad (0, 0, 30, 30)) (lit "q_0000_0000.jpg");
   mkPage (crop quad (39, 0, 70, 30)) (lit "q_0000_0001.jpg");
   mkPage (crop quad (0, 39, 30, 70)) (lit "q_0001_0000.jpg");
   mkPage (crop quad (39, 39, 70, 70)) (lit "q_0001_0001.jpg")].

(** A book whose second page has a PNG filename. *)
Definition mixed_book : ComicBook RGB :=
  mkBook [mkPage tile (lit "a.jpg"); mkPage tile (lit "a.png");
          mkPage tile (lit "b.jpg")].

(** ** Vocabulary of the statements *)

(** The text [get_new_filename] appends to the field before the last. *)
Definition panel_suffix (row col : nat) : str :=
  lit "_" ++ format_04d row ++ lit "_" ++ format_04d col.

(** Reading a decimal numeral back, leading zeros allowed. *)
Definition parse_decimal (s : str) : option nat :=
  option_map Nat.of_uint (NilEmpty.uint_of_string (string_of_list_ascii s)).

Section Vocabulary.

Variable Pixel : Type.
Variable luma : Pixel -> Z.

(** The mean luminance of a row of a [w]-wide image. *)
Definition row_mean (w : nat) (row : list Pixel) : Q :=
  (inject_Z (row_sum luma row) / inject_Z (Z.of_nat w))%Q.

(** A blank row: its mean luminance is at or above the whiteness threshold. *)
Definition blank (w : nat) (row : list Pixel) : bool :=
  is_white (row_mean w row).

(** The number of blank rows of an image. *)
Definition num_blank (img : Image Pixel) : nat :=
  length (filter (blank (size_w img)) (data img)).

Definition no_blank_row (img : Image Pixel) : Prop :=
  Forall (fun row => blank (size_w img) row = false) (data img).

Definition no_blank_col (img : Image Pixel) : Prop :=
  Forall (fun col => blank (size_h img) col = false)
    (columns (size_w img) (data img)).

(** Whether row [i] of an image is blank. *)
Definition blank_at (img : Image Pixel) (i : nat) : bool :=
  match nth_error (data img) i with
  | Some row => blank (size_w img) row
  | None => false
  end.

Definition row_means (img : Image Pixel) : list Q :=
  map (row_mean (size_w img)) (data img).

(** The sparse-page test: more than four rows in ten are blank. *)
Definition sparse (img : Image Pixel) : bool :=
  Qlt_bool WHITE_PAGE_NUM_WHITE_ROWS_THRESHOLD
    (inject_Z (Z.of_nat (length (filter is_white (row_means img))))
     / inject_Z (Z.of_nat (size_h img)))%Q.

(** The bands the scan closes, as pairs [(upper, lower)], from the flags of
    the rows from [y] on. *)
Fixpoint scan_bands (whites : list bool) (y y_prev_white : nat)
  : nat * list (nat * nat) :=
  match whites with
  | [] => (y_prev_white, [])
  | true :: whites' =>
      let '(p, bands) := scan_bands whites' (S y) y in
      (p, if PANEL_WIDTH_THRESHOLD <=? y - y_prev_white
          then (y_prev_white, y) :: bands else bands)
  | false :: whites' => scan_bands whites' (S y) y_prev_white
  end.

(** The row bands of an image, top to bottom. *)
Definition row_bands (img : Image Pixel) : list (nat * nat) :=
  if sparse img then [(0, size_h img)]
  else
    let '(p, bands) := scan_bands (map is_white (row_means img)) 0 0 in
    if PANEL_WIDTH_THRESHOLD <=? size_h img - p
    then bands ++ [(p, size_h img)] else bands.

(** The column bands of an image, left to right: the row bands of the image
    turned so that its left edge is on top. *)
Definition col_bands (img : Image Pixel) : list (nat * nat) :=
  row_bands (ROTATE_270 img).

(** Bands inside [0, n], none empty, each ending before the next starts. *)
Definition ascending (n : nat) (bands : list (nat * nat)) : Prop :=
  Forall (fun b => fst b < snd b <= n) bands
  /\ StronglySorted (fun b c => snd b <= fst c) bands.

Definition row_crop (img : Image Pixel) (b : nat * nat) : Image Pixel :=
  crop img (0, fst b, size_w img, snd b).

(** The panel of row band [rb] and column band [cb]. *)
Definition panel_crop (img : Image Pixel) (rb cb : nat * nat) : Image Pixel :=
  crop img (fst cb, fst rb, snd cb, snd rb).

(** A filename [ComicBookPage.save] accepts: its last field, in upper case,
    is [JPG] or [JPEG]. *)
Definition jpeg_named (name : str) : bool :=
  match getitem [] (split "."%char name) (-1) with
  | Ok field =>
      str_eqb (upper field) (lit "JPG") || str_eqb (upper field) (lit "JPEG")
  | Raise _ => false
  end.

(** A filename [split_panels] can rename: it has a dot. *)
Definition dotted (name : str) : Prop := In "."%char name.

(** The grid of panels of an image: its row bands, each with the column
    bands found inside it. *)
Definition panel_grid (img : Image Pixel)
  : list ((nat * nat) * list (nat * nat)) :=
  map (fun rb => (rb, col_bands (row_crop img rb))) (row_bands img).

(** The cells [(row, col, row band, column band)] of a grid in reading
    order: row after row, and from left to right inside a row. *)
Definition cells (grid : list ((nat * nat) * list (nat * nat)))
  : list (nat * nat * (nat * nat) * (nat * nat)) :=
  concat (map (fun '(row, (rb, cbs)) =>
                 map (fun '(col, cb) => (row, col, rb, cb)) (enumerate cbs))
            (enumerate grid)).

(** A pure single-panel page: a decoded image as thick as a panel in both
    directions, with no blank row and no blank column, under a filename
    that has a dot. *)
Definition single_panel_page (page : ComicBookPage Pixel) : Prop :=
  wf_image (image page)
  /\ PANEL_WIDTH_THRESHOLD <= size_w (image page)
  /\ PANEL_WIDTH_THRESHOLD <= size_h (image page)
  /\ no_blank_row (image page)
  /\ no_blank_col (image page)
  /\ dotted (filename page).

Section Codec.

Variable Opened : Type.
Variable Image_open : Bytes -> result Opened.
Variable convert_RGB : Opened -> result (Image Pixel).

(** The image a file decodes to, if it does. *)
Definition decoded (content : Bytes) : option (Image Pixel) :=
  match Image_open content with
  | Ok opened =>
      match convert_RGB opened with
      | Ok img => Some img
      | Raise _ => None
      end
  | Raise _ => None
  end.

(** An entry name [from_file] turns into a page: not a directory, and its
    content decodes. *)
Definition loadable (a : Archive) (name : str) : bool :=
  negb (endswith name (lit "/"))
  && match decoded (read_entry a name) with
     | Some _ => true
     | None => false
     end.

(** An entry that does not end the load with an exception. *)
Definition harmless (a : Archive) (name : str) : Prop :=
  exists loaded, load_entry Image_open convert_RGB a name = Ok loaded.

End Codec.

(** What [ComicBookPage.save] does with an image whose filename has the
    format field [ext]. *)
Definition save_outcome (encode_jpeg : Image Pixel -> Bytes)
  (img : Image Pixel) (ext : str) : result Bytes :=
  if str_eqb (upper ext) (lit "JPG") || str_eqb (upper ext) (lit "JPEG")
  then Ok (encode_jpeg img)
  else Raise (ValueError (lit "Unknown file format '" ++ upper ext
                            ++ lit "' to save")).

(** [named name p k]: [p] is named after [name] and the indices [k]. *)
Definition named (name : str) (page : ComicBookPage Pixel) (k : nat * nat)
  : Prop :=
  get_new_filename name (fst k) (snd k) = Ok (filename page).

(** The page [split_panels] makes of one cell. *)
Definition make_panel (page : ComicBookPage Pixel)
  (cell : nat * nat * (nat * nat) * (nat * nat))
  : result (ComicBookPage Pixel) :=
  let '(row, col, rb, cb) := cell in
  new_filename <- get_new_filename (filename page) row col ;;
  Ok (mkPage (panel_crop (image page) rb cb) new_filename).

End Vocabulary.

(** * Facts *)

Ltac by_computation := vm_compute; repeat constructor.

(** ** Lists *)

Section ListFacts.

Variable A : Type.
Implicit Types (l : list A) (P : A -> Prop).

Lemma Forall_firstn P k l : Forall P l -> Forall P (firstn k l).
Proof.
  intros H. revert k. induction H; intros [|k]; simpl; auto.
Qed.

Lemma Forall_skipn P k l : Forall P l -> Forall P (skipn k l).
Proof.
  intros H. revert k. induction H; intros [|k]; simpl; auto.
Qed.

Lemma Forall_slice P a k l : Forall P l -> Forall P (slice a k l).
Proof. intros H. now apply Forall_firstn, Forall_skipn. Qed.

Lemma length_slice a k l : length (slice a k l) = Nat.min k (length l - a).
Proof. unfold slice. now rewrite length_firstn, length_skipn. Qed.

Lemma slice_all k l : length l <= k -> slice 0 k l = l.
Proof. intros H. unfold slice. simpl. now apply firstn_all2. Qed.

Lemma slice_slice a k b j l :
  b + j <= k -> slice b j (slice a k l) = slice (a + b) j l.
Proof.
  intros H. unfold slice.
  rewrite skipn_firstn_comm, firstn_firstn, skipn_skipn.
  f_equal; [lia | f_equal; lia].
Qed.

End ListFacts.

Lemma map_slice {A B} (f : A -> B) a k (l : list A) :
  slice a k (map f l) = map f (slice a k l).
Proof. unfold slice. now rewrite skipn_map, firstn_map. Qed.

(** ** Grids of pixels *)

Section GridFacts.

Variable Pixel : Type.
Implicit Types (row col : list Pixel) (rows cols : list (list Pixel)).

Lemma zip_cons_nil_r col : zip_cons col [] = [].
Proof. destruct col; reflexivity. Qed.

Lemma length_zip_cons col rows :
  length col = length rows -> length (zip_cons col rows) = length rows.
Proof.
  revert rows. induction col as [|p col IH]; intros [|r rows] H;
    simpl in *; try discriminate; auto.
Qed.

Lemma zip_cons_Forall_length n col rows :
  Forall (fun r => length r = n) rows ->
  Forall (fun r => length r = S n) (zip_cons col rows).
Proof.
  intros H. revert col. induction H as [|r rows Hr _ IH]; intros [|p col];
    simpl; constructor; auto. simpl. congruence.
Qed.

Lemma columns_0 rows : columns 0 rows = [].
Proof.
  induction rows as [|r rows IH]; simpl; auto.
  rewrite IH. apply zip_cons_nil_r.
Qed.

Lemma length_columns w rows :
  Forall (fun r => length r = w) rows -> length (columns w rows) = w.
Proof.
  induction 1 as [|r rows Hr _ IH]; simpl.
  - apply repeat_length.
  - rewrite length_zip_cons; congruence.
Qed.

Lemma columns_Forall_length w rows :
  Forall (fun c => length c = length rows) (columns w rows).
Proof.
  induction rows as [|r rows IH]; simpl.
  - apply Forall_forall. intros c Hc. apply repeat_spec in Hc. now subst.
  - now apply zip_cons_Forall_length.
Qed.

(** Putting a column in front of a grid puts a row on top of its columns. *)
Lemma columns_zip_cons n col rows :
  length col = length rows ->
  Forall (fun r => length r = n) rows ->
  columns (S n) (zip_cons col rows) = col :: columns n rows.
Proof.
  revert rows. induction col as [|p col IH]; intros [|r rows] Hlen Hall;
    simpl in *; try discriminate; auto.
  inversion Hall; subst. rewrite IH by (auto; lia). reflexivity.
Qed.

Lemma columns_involutive w rows :
  Forall (fun r => length r = w) rows ->
  columns (length rows) (columns w rows) = rows.
Proof.
  induction 1 as [|r rows Hr Hall IH]; simpl.
  - apply columns_0.
  - rewrite columns_zip_cons.
    + now rewrite IH.
    + rewrite length_columns; auto.
    + apply columns_Forall_length.
Qed.

Lemma zip_cons_app col1 col2 rows1 rows2 :
  length col1 = length rows1 ->
  zip_cons (col1 ++ col2) (rows1 ++ rows2)
  = zip_cons col1 rows1 ++ zip_cons col2 rows2.
Proof.
  revert rows1. induction col1 as [|p col1 IH]; intros [|r rows1] H;
    simpl in *; try discriminate; auto.
  now rewrite IH by lia.
Qed.

Lemma zip_cons_rev col rows :
  length col = length rows ->
  zip_cons (rev col) (rev rows) = rev (zip_cons col rows).
Proof.
  revert rows. induction col as [|p col IH]; intros [|r rows] H;
    simpl in *; try discriminate; auto.
  rewrite zip_cons_app by (rewrite !length_rev; lia).
  rewrite IH by lia. reflexivity.
Qed.

(** Mirroring every row reverses the order of the columns. *)
Lemma columns_map_rev n rows :
  Forall (fun r => length r = n) rows ->
  columns n (map (@rev Pixel) rows) = rev (columns n rows).
Proof.
  induction 1 as [|r rows Hr Hall IH]; simpl.
  - now rewrite rev_repeat.
  - rewrite IH, zip_cons_rev; auto.
    rewrite length_columns; auto.
Qed.

Lemma zip_cons_skipn a col rows :
  skipn a (zip_cons col rows) = zip_cons (skipn a col) (skipn a rows).
Proof.
  revert col rows. induction a as [|a IH]; intros [|p col] [|r rows];
    simpl; auto.
  now rewrite zip_cons_nil_r.
Qed.

Lemma zip_cons_firstn k col rows :
  firstn k (zip_cons col rows) = zip_cons (firstn k col) (firstn k rows).
Proof.
  revert col rows. induction k as [|k IH]; intros [|p col] [|r rows];
    simpl; auto.
  now rewrite IH.
Qed.

(** A run of columns, seen as rows again, is the same run cut out of every
    row. *)
Lemma columns_slice w a k rows :
  Forall (fun r => length r = w) rows ->
  columns (length rows) (slice a k (columns w rows)) = map (slice a k) rows.
Proof.
  unfold slice.
  induction 1 as [|r rows Hr Hall IH]; simpl.
  - apply columns_0.
  - rewrite zip_cons_skipn, zip_cons_firstn, columns_zip_cons.
    + now rewrite IH.
    + rewrite !length_firstn, !length_skipn, length_columns; auto.
    + apply Forall_firstn, Forall_skipn, columns_Forall_length.
Qed.

End GridFacts.

(** ** Crops and quarter turns *)

Section ImageFacts.

Variable Pixel : Type.
Implicit Types (img : Image Pixel).

Lemma rectangular_crop img box : rectangular img ->
  let '(l, u, r, d) := box in
  r <= size_w img -> rectangular (crop img box).
Proof.
  destruct box as [[[l u] r] d]. intros H Hr. unfold rectangular in *.
  simpl. apply Forall_map. apply Forall_slice.
  eapply Forall_impl; [|exact H]. simpl. intros row Hrow.
  rewrite length_slice. lia.
Qed.

Lemma crop_all img :
  rectangular img -> crop img (0, 0, size_w img, size_h img) = img.
Proof.
  intros H. destruct img as [w rows]. unfold crop, size_h, rectangular in *.
  simpl in *. rewrite !Nat.sub_0_r. f_equal.
  rewrite slice_all by lia.
  induction H as [|r rows Hr _ IH]; simpl; auto.
  rewrite slice_all by lia. now rewrite IH.
Qed.

Lemma crop_crop img l u r d l' u' r' d' :
  l' <= r' <= r - l -> u' <= d' <= d - u ->
  crop (crop img (l, u, r, d)) (l', u', r', d')
  = crop img (l + l', u + u', l + r', u + d').
Proof.
  intros Hr Hd. unfold crop. simpl. f_equal; [lia|].
  rewrite map_slice, map_map, slice_slice by lia.
  replace (u + d' - (u + u')) with (d' - u') by lia.
  apply map_ext. intros row. rewrite slice_slice by lia. f_equal. lia.
Qed.

Lemma size_h_ROTATE_270 img :
  rectangular img -> size_h (ROTATE_270 img) = size_w img.
Proof.
  intros H. unfold size_h. simpl. rewrite length_map. now apply length_columns.
Qed.

Lemma rectangular_ROTATE_270 img : rectangular (ROTATE_270 img).
Proof.
  unfold rectangular. simpl. apply Forall_map.
  eapply Forall_impl; [|apply columns_Forall_length].
  simpl. intros c Hc. now rewrite length_rev.
Qed.

(** Cutting rows [a, b) out of the image turned clockwise and turning the
    cut back is cutting columns [a, b) out of the image itself. *)
Lemma ROTATE_90_crop_ROTATE_270 img a b :
  rectangular img -> b <= size_w img ->
  ROTATE_90 (crop (ROTATE_270 img) (0, a, size_w (ROTATE_270 img), b))
  = crop img (a, 0, b, size_h img).
Proof.
  intros H Hb. unfold ROTATE_90, crop, size_h. simpl.
  rewrite !Nat.sub_0_r. rewrite !length_map, length_slice, length_map.
  rewrite length_columns by exact H.
  f_equal; [lia|].
  set (h := length (data img)).
  assert (E : map (slice 0 h) (slice a (b - a)
                (map (@rev Pixel) (columns (size_w img) (data img))))
              = map (@rev Pixel) (slice a (b - a)
                  (columns (size_w img) (data img)))).
  { rewrite map_slice, map_map. apply map_ext_Forall.
    apply Forall_slice.
    eapply Forall_impl; [|apply columns_Forall_length]. simpl.
    intros c Hc. apply slice_all. rewrite length_rev. unfold h. lia. }
  change (size_h img) with h. rewrite E. rewrite columns_map_rev, rev_involutive.
  - rewrite (@slice_all _ h (data img)) by (unfold h; lia).
    apply columns_slice. exact H.
  - apply Forall_slice, columns_Forall_length.
Qed.

Lemma ROTATE_90_ROTATE_270 img :
  rectangular img -> ROTATE_90 (ROTATE_270 img) = img.
Proof.
  intros H.
  pose proof (@ROTATE_90_crop_ROTATE_270 img 0 (size_w img) H (le_n _)) as E.
  pose proof (crop_all (rectangular_ROTATE_270 img)) as C.
  rewrite (size_h_ROTATE_270 H) in C. rewrite C in E.
  now rewrite crop_all in E.
Qed.

End ImageFacts.

(** ** The row segmenter *)

Lemma mapM_total {A B} (f : A -> result B) (g : A -> B) (l : list A) :
  Forall (fun a => f a = Ok (g a)) l -> mapM f l = Ok (map g l).
Proof.
  induction 1 as [|a l Ha _ IH]; simpl; auto.
  now rewrite Ha, IH.
Qed.

Lemma StronglySorted_snoc {A} (R : A -> A -> Prop) (l : list A) (x : A) :
  StronglySorted R l -> Forall (fun a => R a x) l ->
  StronglySorted R (l ++ [x]).
Proof.
  induction 1 as [|a l Hl IH Ha]; intros Hx; simpl.
  - repeat constructor.
  - inversion Hx; subst. constructor; auto.
    apply Forall_app. split; auto.
Qed.

Section SegmenterFacts.

Variable Pixel : Type.
Variable luma : Pixel -> Z.
Implicit Types (img : Image Pixel).

Lemma wf_ROTATE_270 img : wf_image img -> wf_image (ROTATE_270 img).
Proof.
  intros (Hr & Hw & Hh). split; [apply rectangular_ROTATE_270|].
  rewrite size_h_ROTATE_270 by exact Hr. simpl. auto.
Qed.

Lemma size_h_row_crop img b :
  snd b <= size_h img -> size_h (row_crop img b) = snd b - fst b.
Proof.
  intros H. unfold row_crop, crop, size_h in *. simpl.
  rewrite length_map, length_slice. lia.
Qed.

Lemma size_w_row_crop img b : size_w (row_crop img b) = size_w img.
Proof. unfold row_crop. simpl. apply Nat.sub_0_r. Qed.

Lemma wf_row_crop img b :
  wf_image img -> fst b < snd b <= size_h img -> wf_image (row_crop img b).
Proof.
  intros (Hr & Hw & Hh) Hb. split; [|split].
  - apply (@rectangular_crop _ img (0, fst b, size_w img, snd b) Hr).
    apply le_n.
  - simpl. lia.
  - rewrite size_h_row_crop; lia.
Qed.

Lemma y_avg_sum_of_ok img :
  0 < size_w img -> y_avg_sum_of luma img = Ok (row_means luma img).
Proof.
  intros Hw. unfold y_avg_sum_of, row_means. apply mapM_total.
  apply Forall_forall. intros row _. unfold truediv, row_mean.
  destruct (Z.eqb_spec (Z.of_nat (size_w img)) 0); [lia | reflexivity].
Qed.

(** The loop closes the bands [scan_bands] lists, cropping each as it goes. *)
Lemma scan_spec img zs : forall y p res,
  scan img zs y p res
  = (fst (scan_bands (map is_white zs) y p),
     res ++ map (row_crop img) (snd (scan_bands (map is_white zs) y p))).
Proof.
  induction zs as [|z zs IH]; intros y p res; cbn [scan scan_bands map].
  - cbn. now rewrite app_nil_r.
  - destruct (is_white z); rewrite IH; [|reflexivity].
    destruct (scan_bands (map is_white zs) (S y) y) as [p' bands].
    cbn [fst snd].
    destruct (PANEL_WIDTH_THRESHOLD <=? y - p); cbn [map]; auto.
    now rewrite <- app_assoc.
Qed.

Theorem split_into_rows_spec img :
  wf_image img ->
  split_into_rows luma img = Ok (map (row_crop img) (row_bands luma img)).
Proof.
  intros (Hr & Hw & Hh). unfold split_into_rows, row_bands.
  rewrite y_avg_sum_of_ok by exact Hw. cbn [bind].
  unfold truediv. destruct (Z.eqb_spec (Z.of_nat (size_h img)) 0); [lia|].
  cbn [bind]. fold (sparse luma img). destruct (sparse luma img).
  - unfold row_crop. cbn [map fst snd]. now rewrite crop_all.
  - rewrite scan_spec.
    destruct (scan_bands (map is_white (row_means luma img)) 0 0)
      as [p bands]. cbn [fst snd app].
    destruct (PANEL_WIDTH_THRESHOLD <=? size_h img - p); auto.
    now rewrite map_app.
Qed.

Lemma scan_bands_ascending whites : forall y p,
  p <= y ->
  p <= fst (scan_bands whites y p) <= Nat.max p (y + length whites)
  /\ Forall (fun b => p <= fst b
                      /\ fst b < snd b <= fst (scan_bands whites y p))
       (snd (scan_bands whites y p))
  /\ StronglySorted (fun b c => snd b <= fst c) (snd (scan_bands whites y p)).
Proof.
  induction whites as [|[|] whites IH]; intros y p Hp;
    cbn [scan_bands length].
  - cbn [fst snd]. repeat split; try lia; constructor.
  - specialize (IH (S y) y (Nat.le_succ_diag_r y)).
    destruct (scan_bands whites (S y) y) as [p' bands]. cbn [fst snd] in *.
    destruct IH as (Hp' & Hall & Hsorted).
    assert (Hall' : Forall (fun b => p <= fst b /\ fst b < snd b <= p') bands).
    { eapply Forall_impl; [|exact Hall]. cbn beta. intros b Hb. lia. }
    destruct (Nat.leb_spec PANEL_WIDTH_THRESHOLD (y - p)) as [Hth|Hth].
    + unfold PANEL_WIDTH_THRESHOLD in Hth.
      repeat split; try lia.
      * constructor; auto. cbn [fst snd]. lia.
      * constructor; auto.
        eapply Forall_impl; [|exact Hall]. cbn [fst snd]. intros b Hb. lia.
    + repeat split; try lia; auto.
  - specialize (IH (S y) p (Nat.le_trans _ _ _ Hp (Nat.le_succ_diag_r y))).
    destruct (scan_bands whites (S y) p) as [p' bands]. cbn [fst snd] in *.
    destruct IH as (Hp' & Hall & Hsorted). repeat split; try lia; auto.
Qed.

(** The row bands run from top to bottom without overlap. *)
Theorem row_bands_ascending img :
  0 < size_h img -> ascending (size_h img) (row_bands luma img).
Proof.
  intros Hh. unfold row_bands, ascending.
  destruct (sparse luma img).
  - split; repeat constructor; cbn [fst snd]; lia.
  - pose proof (@scan_bands_ascending (map is_white (row_means luma img))
                  0 0 (le_n 0)) as H.
    destruct (scan_bands (map is_white (row_means luma img)) 0 0)
      as [p bands]. cbn [fst snd] in H.
    destruct H as (Hp & Hall & Hsorted).
    unfold row_means in Hp. rewrite !length_map in Hp. fold (size_h img) in Hp.
    destruct (Nat.leb_spec PANEL_WIDTH_THRESHOLD (size_h img - p)) as [Hth|_].
    + unfold PANEL_WIDTH_THRESHOLD in Hth. split.
      * apply Forall_app. split.
        -- eapply Forall_impl; [|exact Hall]. cbn beta. intros b Hb. lia.
        -- repeat constructor; cbn [fst snd]; lia.
      * apply StronglySorted_snoc; auto.
        eapply Forall_impl; [|exact Hall]. cbn [fst snd]. intros b Hb. lia.
    + split; auto.
      eapply Forall_impl; [|exact Hall]. cbn beta. intros b Hb. lia.
Qed.

Lemma col_bands_ascending img :
  wf_image img -> ascending (size_w img) (col_bands luma img).
Proof.
  intros (Hr & Hw & Hh). unfold col_bands.
  rewrite <- (size_h_ROTATE_270 Hr). apply row_bands_ascending.
  now rewrite size_h_ROTATE_270.
Qed.

(** Column detection by rotation cuts the image itself into column bands,
    left to right. *)
Theorem split_into_cols_spec img :
  wf_image img ->
  split_into_cols luma img
  = Ok (map (fun cb => crop img (fst cb, 0, snd cb, size_h img))
          (col_bands luma img)).
Proof.
  intros Hwf. unfold split_into_cols.
  rewrite split_into_rows_spec by now apply wf_ROTATE_270.
  simpl. f_equal. rewrite map_map. apply map_ext_Forall.
  destruct (col_bands_ascending Hwf) as [Hall _]. fold (col_bands luma img).
  eapply Forall_impl; [|exact Hall]. simpl. intros b Hb.
  unfold row_crop. apply ROTATE_90_crop_ROTATE_270; [apply Hwf | lia].
Qed.

End SegmenterFacts.

(** ** Strings and filenames *)

Section StringFacts.

Implicit Types (s name stem : str) (fields : list str) (sep c : ascii).

Lemma split_nonempty sep s : split sep s <> [].
Proof.
  destruct s as [|c s]; simpl; [discriminate|].
  destruct (Ascii.eqb c sep); [discriminate|].
  destruct (split sep s); discriminate.
Qed.

Lemma join_split sep s : join sep (split sep s) = s.
Proof.
  induction s as [|c s IH]; simpl; auto.
  pose proof (split_nonempty sep s) as Hne.
  destruct (Ascii.eqb_spec c sep) as [->|Hc].
  - destruct (split sep s) as [|f fs]; [contradiction|].
    simpl in *. now rewrite IH.
  - destruct (split sep s) as [|f fs]; [contradiction|].
    destruct fs; simpl in *; now rewrite <- IH.
Qed.

Lemma split_fields_free sep s : Forall (fun f => ~ In sep f) (split sep s).
Proof.
  induction s as [|c s IH]; simpl.
  - repeat constructor. auto.
  - destruct (Ascii.eqb_spec c sep) as [->|Hc].
    + constructor; auto.
    + destruct (split sep s) as [|f fs]; inversion IH; subst.
      * repeat constructor. simpl. intuition.
      * constructor; auto. simpl. intuition.
Qed.

Lemma split_free sep s : ~ In sep s -> split sep s = [s].
Proof.
  induction s as [|c s IH]; simpl; auto. intros H.
  destruct (Ascii.eqb_spec c sep) as [->|Hc]; [tauto|].
  rewrite IH by tauto. reflexivity.
Qed.

Lemma split_app sep s t :
  ~ In sep s -> split sep (s ++ sep :: t) = s :: split sep t.
Proof.
  induction s as [|c s IH]; simpl; intros H.
  - now rewrite Ascii.eqb_refl.
  - destruct (Ascii.eqb_spec c sep) as [->|Hc]; [tauto|].
    rewrite IH by tauto. reflexivity.
Qed.

Lemma split_join sep fields :
  fields <> [] -> Forall (fun f => ~ In sep f) fields ->
  split sep (join sep fields) = fields.
Proof.
  intros Hne H. induction H as [|f fs Hf Hfs IH]; [contradiction|].
  destruct fs as [|g fs].
  - simpl. now apply split_free.
  - change (join sep (f :: g :: fs)) with (f ++ sep :: join sep (g :: fs)).
    rewrite split_app by exact Hf. f_equal. apply IH. discriminate.
Qed.

(** A filename has a dot exactly when it splits into two fields or more. *)
Lemma dotted_split name :
  dotted name <-> 2 <= length (split "."%char name).
Proof.
  unfold dotted. split.
  - intros H. apply in_split in H. destruct H as (s & t & ->).
    assert (E : forall u, 2 <= length (split "."%char (u ++ "."%char :: t))).
    { induction u as [|c u IH]; simpl.
      - pose proof (split_nonempty "."%char t).
        destruct (split "."%char t); simpl; [contradiction | lia].
      - destruct (Ascii.eqb c "."%char).
        + simpl. lia.
        + destruct (split "."%char (u ++ "."%char :: t)); simpl in *; lia. }
    apply E.
  - intros H. destruct (in_dec ascii_dec "."%char name) as [Hin|Hin]; auto.
    rewrite split_free in H by exact Hin. simpl in H. lia.
Qed.

Lemma sep_tail_inj sep (a b x y : str) :
  ~ In sep x -> ~ In sep y -> a ++ sep :: x = b ++ sep :: y ->
  a = b /\ x = y.
Proof.
  intros Hx Hy E. apply app_inj_pivot in E. tauto.
Qed.

(** *** [format_04d] *)

Lemma to_uint_nonnil n : Nat.to_uint n <> Nil.
Proof.
  rewrite <- (Unsigned.of_to n), Unsigned.to_of. unfold unorm.
  destruct (nzhead (Nat.to_uint n)); discriminate.
Qed.

Lemma uint_of_digits n :
  NilEmpty.uint_of_string (NilZero.string_of_uint (Nat.to_uint n))
  = Some (Nat.to_uint n).
Proof.
  pose proof (NilZero.usu (Nat.to_uint n) (to_uint_nonnil n)) as H.
  unfold NilZero.uint_of_string in H.
  destruct (NilZero.string_of_uint (Nat.to_uint n)); [discriminate | exact H].
Qed.

Lemma uint_of_zeros k s d :
  NilEmpty.uint_of_string (string_of_list_ascii s) = Some d ->
  exists d', NilEmpty.uint_of_string
               (string_of_list_ascii (repeat "0"%char k ++ s)) = Some d'
             /\ Nat.of_uint d' = Nat.of_uint d.
Proof.
  intros H. induction k as [|k (d' & E & V)]; simpl.
  - eauto.
  - rewrite E. simpl. exists (D0 d'). split; auto.
Qed.

Lemma parse_format_04d n : parse_decimal (format_04d n) = Some n.
Proof.
  unfold parse_decimal, format_04d, lit.
  destruct (@uint_of_zeros
    (4 - length (list_ascii_of_string
                   (NilZero.string_of_uint (Nat.to_uint n))))
    (list_ascii_of_string (NilZero.string_of_uint (Nat.to_uint n)))
    (Nat.to_uint n)) as (d' & E & V).
  - rewrite string_of_list_ascii_of_string. apply uint_of_digits.
  - rewrite E. simpl. now rewrite V, Unsigned.of_to.
Qed.

Lemma format_04d_inj n m : format_04d n = format_04d m -> n = m.
Proof.
  intros E. pose proof (parse_format_04d n) as H.
  rewrite E, parse_format_04d in H. congruence.
Qed.

Lemma parsed_digits s : forall d,
  NilEmpty.uint_of_string (string_of_list_ascii s) = Some d ->
  ~ In "_"%char s /\ ~ In "."%char s.
Proof.
  induction s as [|c s IH]; simpl; intros d H; [tauto|].
  destruct (NilEmpty.uint_of_string (string_of_list_ascii s)) as [d0|] eqn:E;
    [|discriminate].
  destruct (IH d0 eq_refl) as [H1 H2].
  apply uint_of_char_spec in H.
  split; intros [Hc|Hin]; auto; subst c;
    (repeat (destruct H as [[H _]|H]; [discriminate|]));
    destruct H as [H _]; discriminate.
Qed.

Lemma format_04d_chars n :
  ~ In "_"%char (format_04d n) /\ ~ In "."%char (format_04d n).
Proof.
  pose proof (parse_format_04d n) as H. unfold parse_decimal in H.
  destruct (NilEmpty.uint_of_string (string_of_list_ascii (format_04d n)))
    as [d|] eqn:E; [|discriminate].
  eapply parsed_digits; eauto.
Qed.

End StringFacts.

Lemma last_two {A} (l : list A) :
  2 <= length l -> exists l0 a b, l = l0 ++ [a; b].
Proof.
  induction l as [|x l IH]; simpl; intros H; [lia|].
  destruct l as [|y l]; simpl in *; [lia|].
  destruct l as [|z l].
  - exists [], x, y. reflexivity.
  - destruct IH as (l0 & a & b & E); [simpl; lia|].
    exists (x :: l0), a, b. simpl. now rewrite E.
Qed.

Section FilenameFacts.

Implicit Types (name stem ext : str) (pre : list str) (row col : nat).

Lemma norm_index_penultimate n : 2 <= n -> norm_index n (-2) = Ok (n - 2).
Proof.
  intros H. unfold norm_index. simpl.
  destruct (Z.ltb_spec (Z.of_nat n + -2) 0); [lia|].
  destruct (Z.leb_spec (Z.of_nat n) (Z.of_nat n + -2)); [lia|].
  simpl. f_equal. lia.
Qed.

Lemma norm_index_short n : n < 2 -> norm_index n (-2) = Raise IndexError.
Proof.
  intros H. unfold norm_index. simpl.
  destruct (Z.ltb_spec (Z.of_nat n + -2) 0); [reflexivity | lia].
Qed.

Lemma get_new_filename_fields name pre stem ext row col :
  split "."%char name = pre ++ [stem; ext] ->
  get_new_filename name row col
  = Ok (join "."%char (pre ++ [stem ++ panel_suffix row col; ext])).
Proof.
  intros E. unfold get_new_filename, getitem, setitem. rewrite E.
  rewrite !length_app. cbn [length].
  rewrite norm_index_penultimate by lia. cbn [bind].
  replace (length pre + 2 - 2) with (length pre + 0) by lia.
  rewrite app_nth2_plus, firstn_app_2. cbn [nth firstn]. rewrite app_nil_r.
  replace (S (length pre + 0)) with (length pre + 1) by lia.
  rewrite skipn_app, skipn_all2 by lia.
  replace (length pre + 1 - length pre) with 1 by lia. reflexivity.
Qed.

Lemma get_new_filename_dotted name row col :
  dotted name -> exists s, get_new_filename name row col = Ok s.
Proof.
  intros H. apply dotted_split, last_two in H.
  destruct H as (pre & stem & ext & E).
  eexists. eapply get_new_filename_fields. exact E.
Qed.

Lemma get_new_filename_undotted name row col :
  ~ dotted name -> get_new_filename name row col = Raise IndexError.
Proof.
  intros H. unfold get_new_filename, getitem.
  rewrite norm_index_short; [reflexivity|].
  rewrite dotted_split in H. lia.
Qed.

Lemma get_new_filename_Ok_dotted name row col s :
  get_new_filename name row col = Ok s -> dotted name /\ dotted s.
Proof.
  intros H. destruct (in_dec ascii_dec "."%char name) as [Hd|Hd].
  - split; [exact Hd|].
    pose proof Hd as Hd'. apply dotted_split, last_two in Hd'.
    destruct Hd' as (pre & stem & ext & E).
    rewrite (@get_new_filename_fields _ _ _ _ row col E) in H. injection H as <-.
    clear. induction pre as [|f pre IH].
    + simpl. apply in_or_app. right. now left.
    + change (join "."%char ((f :: pre) ++ [stem ++ panel_suffix row col; ext]))
        with (join "."%char (f :: pre ++ [stem ++ panel_suffix row col; ext])).
      destruct (pre ++ [stem ++ panel_suffix row col; ext]) eqn:E.
      * destruct pre; discriminate.
      * cbn [join]. apply in_or_app. right. now left.
  - rewrite get_new_filename_undotted in H by exact Hd. discriminate.
Qed.

(** The new filename determines the old one and both indices. *)
Theorem get_new_filename_inj name1 row1 col1 name2 row2 col2 s :
  get_new_filename name1 row1 col1 = Ok s ->
  get_new_filename name2 row2 col2 = Ok s ->
  name1 = name2 /\ row1 = row2 /\ col1 = col2.
Proof.
  intros H1 H2.
  destruct (get_new_filename_Ok_dotted _ _ _ H1) as [D1 _].
  destruct (get_new_filename_Ok_dotted _ _ _ H2) as [D2 _].
  apply dotted_split, last_two in D1, D2.
  destruct D1 as (pre1 & stem1 & ext1 & E1).
  destruct D2 as (pre2 & stem2 & ext2 & E2).
  rewrite (@get_new_filename_fields _ _ _ _ row1 col1 E1) in H1.
  rewrite (@get_new_filename_fields _ _ _ _ row2 col2 E2) in H2.
  injection H1 as H1. injection H2 as H2.
  pose proof (split_fields_free "."%char name1) as F1.
  pose proof (split_fields_free "."%char name2) as F2.
  rewrite E1 in F1. rewrite E2 in F2.
  apply Forall_app in F1, F2.
  destruct F1 as [Fp1 Fl1], F2 as [Fp2 Fl2].
  apply Forall_cons_iff in Fl1, Fl2.
  destruct Fl1 as [Fs1 Fe1], Fl2 as [Fs2 Fe2].
  assert (Fx : forall r c, ~ In "."%char (panel_suffix r c)).
  { intros r c. unfold panel_suffix, lit. simpl.
    pose proof (format_04d_chars r). pose proof (format_04d_chars c).
    rewrite in_app_iff. simpl. intuition discriminate. }
  assert (S : split "."%char s
              = pre1 ++ [stem1 ++ panel_suffix row1 col1; ext1]).
  { rewrite <- H1. apply split_join; [destruct pre1; discriminate|].
    apply Forall_app. split; auto. constructor; auto.
    rewrite in_app_iff. intros [?|?]; [tauto | eapply Fx; eauto]. }
  assert (S' : split "."%char s
               = pre2 ++ [stem2 ++ panel_suffix row2 col2; ext2]).
  { rewrite <- H2. apply split_join; [destruct pre2; discriminate|].
    apply Forall_app. split; auto. constructor; auto.
    rewrite in_app_iff. intros [?|?]; [tauto | eapply Fx; eauto]. }
  rewrite S in S'.
  change (pre1 ++ [stem1 ++ panel_suffix row1 col1; ext1])
    with (pre1 ++ [stem1 ++ panel_suffix row1 col1] ++ [ext1]) in S'.
  change (pre2 ++ [stem2 ++ panel_suffix row2 col2; ext2])
    with (pre2 ++ [stem2 ++ panel_suffix row2 col2] ++ [ext2]) in S'.
  rewrite !app_assoc in S'.
  apply app_inj_tail in S'. destruct S' as [S' Eext].
  apply app_inj_tail in S'. destruct S' as [Epre Estem].
  unfold panel_suffix, lit in Estem. simpl in Estem.
  change (stem1 ++ "_"%char :: format_04d row1 ++ "_"%char :: format_04d col1)
    with (stem1 ++ ("_"%char :: format_04d row1)
            ++ "_"%char :: format_04d col1) in Estem.
  change (stem2 ++ "_"%char :: format_04d row2 ++ "_"%char :: format_04d col2)
    with (stem2 ++ ("_"%char :: format_04d row2)
            ++ "_"%char :: format_04d col2) in Estem.
  rewrite !app_assoc in Estem.
  apply sep_tail_inj in Estem; try apply format_04d_chars.
  destruct Estem as [Estem Ecol].
  apply sep_tail_inj in Estem; try apply format_04d_chars.
  destruct Estem as [Estem Erow].
  apply format_04d_inj in Ecol, Erow. subst.
  repeat split.
  rewrite <- (join_split "."%char name1), <- (join_split "."%char name2).
  now rewrite E1, E2.
Qed.

End FilenameFacts.

(** ** Comprehensions that may raise *)

Section MonadFacts.

Variables A B C : Type.
Implicit Types (f : A -> result B) (l : list A).

Lemma mapM_app f l1 l2 :
  mapM f (l1 ++ l2)
  = (xs <- mapM f l1 ;; ys <- mapM f l2 ;; Ok (xs ++ ys)).
Proof.
  induction l1 as [|a l1 IH]; simpl.
  - destruct (mapM f l2); reflexivity.
  - destruct (f a); simpl; auto. rewrite IH.
    destruct (mapM f l1); simpl; auto.
    destruct (mapM f l2); reflexivity.
Qed.

Lemma mapM_map (g : C -> A) f (l : list C) :
  mapM f (map g l) = mapM (fun c => f (g c)) l.
Proof. induction l as [|c l IH]; simpl; auto. now rewrite IH. Qed.

Lemma mapM_ext_Forall f f' l :
  Forall (fun a => f a = f' a) l -> mapM f l = mapM f' l.
Proof. induction 1 as [|a l Ha _ IH]; simpl; auto. now rewrite Ha, IH. Qed.

(** A nested comprehension is a comprehension over the concatenation. *)
Lemma mapM_concat (g : C -> list A) f (l : list C) :
  (gs <- mapM (fun c => mapM f (g c)) l ;; Ok (concat gs))
  = mapM f (concat (map g l)).
Proof.
  induction l as [|c l IH]; simpl; auto.
  rewrite mapM_app, <- IH.
  destruct (mapM f (g c)); simpl; auto.
  destruct (mapM (fun c0 => mapM f (g c0)) l); reflexivity.
Qed.

Lemma mapM_Ok_Forall2 f l out :
  mapM f l = Ok out -> Forall2 (fun a b => f a = Ok b) l out.
Proof.
  revert out. induction l as [|a l IH]; simpl; intros out H.
  - injection H as <-. constructor.
  - destruct (f a) as [b|] eqn:E; simpl in H; [|discriminate].
    destruct (mapM f l) as [bs|]; simpl in H; [|discriminate].
    injection H as <-. constructor; auto.
Qed.

Lemma mapM_Ok_exists f l :
  Forall (fun a => exists b, f a = Ok b) l -> exists out, mapM f l = Ok out.
Proof.
  induction 1 as [|a l [b Hb] _ [bs IH]]; simpl; eauto.
  rewrite Hb, IH. simpl. eauto.
Qed.

Lemma mapM_first_raise f a l e : f a = Raise e -> mapM f (a :: l) = Raise e.
Proof. intros H. simpl. now rewrite H. Qed.

End MonadFacts.

Section EnumerateFacts.

Variables A B : Type.

Lemma enumerate_from_cons s a (l : list A) :
  enumerate_from s (a :: l) = (s, a) :: enumerate_from (S s) l.
Proof. reflexivity. Qed.

Lemma enumerate_from_map (f : A -> B) s (l : list A) :
  combine (seq s (length (map f l))) (map f l)
  = map (fun ix => (fst ix, f (snd ix))) (enumerate_from s l).
Proof.
  revert s. induction l as [|a l IH]; intros s; simpl; auto.
  f_equal. apply IH.
Qed.

Lemma enumerate_map (f : A -> B) (l : list A) :
  enumerate (map f l) = map (fun ix => (fst ix, f (snd ix))) (enumerate l).
Proof. apply enumerate_from_map. Qed.

Lemma enumerate_Forall (P : A -> Prop) (l : list A) :
  Forall P l -> Forall (fun ix => P (snd ix)) (enumerate l).
Proof.
  intros H. apply Forall_forall. intros [i a] Hin.
  apply in_combine_r in Hin. simpl.
  now apply (proj1 (Forall_forall P l) H).
Qed.

End EnumerateFacts.

(** ** The panel extractor *)

Section PageFacts.

Variable Pixel : Type.
Variable luma : Pixel -> Z.
Implicit Types (img : Image Pixel) (page : ComicBookPage Pixel).

Lemma crop_row_crop img rb cb :
  fst rb < snd rb -> fst cb < snd cb <= size_w img ->
  crop (row_crop img rb) (fst cb, 0, snd cb, snd rb - fst rb)
  = panel_crop img rb cb.
Proof.
  intros Hr Hc. unfold row_crop, panel_crop.
  rewrite crop_crop by lia. cbn [Nat.add]. rewrite Nat.add_0_r.
  replace (fst rb + (snd rb - fst rb)) with (snd rb) by lia. reflexivity.
Qed.

(** The columns found in a row band are crops of the page itself. *)
Lemma split_into_cols_row_crop img rb :
  wf_image img -> fst rb < snd rb <= size_h img ->
  split_into_cols luma (row_crop img rb)
  = Ok (map (panel_crop img rb) (col_bands luma (row_crop img rb))).
Proof.
  intros Hwf Hrb.
  pose proof (wf_row_crop rb Hwf Hrb) as Hwf'.
  rewrite split_into_cols_spec by exact Hwf'. f_equal.
  apply map_ext_Forall.
  destruct (col_bands_ascending luma Hwf') as [Hall _].
  eapply Forall_impl; [|exact Hall]. cbn beta. intros cb Hcb.
  rewrite size_h_row_crop by lia.
  apply crop_row_crop; [lia|].
  unfold row_crop in Hcb. simpl in Hcb. lia.
Qed.

(** [split_panels] makes one page of every cell of the panel grid, in
    reading order. *)
Theorem split_panels_spec page :
  wf_image (image page) ->
  ComicBookPage_split_panels luma page
  = mapM (make_panel page) (cells (panel_grid luma (image page))).
Proof.
  intros Hwf. unfold ComicBookPage_split_panels, cells, panel_grid.
  rewrite split_into_rows_spec by exact Hwf. cbn [bind].
  rewrite <- mapM_concat. f_equal.
  rewrite !enumerate_map, !mapM_map.
  apply mapM_ext_Forall.
  destruct (row_bands_ascending luma (image page)) as [Hall _];
    [apply Hwf|].
  apply enumerate_Forall in Hall.
  eapply Forall_impl; [|exact Hall]. cbn beta. intros [row rb] Hrb.
  cbn [fst snd] in *.
  rewrite split_into_cols_row_crop by assumption. cbn [bind].
  rewrite enumerate_map, !mapM_map.
  apply mapM_ext_Forall, Forall_forall. intros [col cb] _. reflexivity.
Qed.

Lemma split_panels_total page :
  wf_image (image page) -> dotted (filename page) ->
  exists out, ComicBookPage_split_panels luma page = Ok out.
Proof.
  intros Hwf Hdot. rewrite split_panels_spec by exact Hwf.
  apply mapM_Ok_exists, Forall_forall. intros [[[row col] rb] cb] _.
  unfold make_panel.
  destruct (@get_new_filename_dotted _ row col Hdot) as [s Hs].
  rewrite Hs. cbn [bind]. eauto.
Qed.

Lemma split_panels_undotted page :
  wf_image (image page) -> ~ dotted (filename page) ->
  ComicBookPage_split_panels luma page
  = match cells (panel_grid luma (image page)) with
    | [] => Ok []
    | _ :: _ => Raise IndexError
    end.
Proof.
  intros Hwf Hdot. rewrite split_panels_spec by exact Hwf.
  destruct (cells (panel_grid luma (image page)))
    as [|[[[row col] rb] cb] rest]; [reflexivity|].
  apply mapM_first_raise. unfold make_panel.
  now rewrite get_new_filename_undotted.
Qed.

End PageFacts.

(** ** The sparse-page test and pages without blank rows *)

Lemma Qlt_bool_fraction (n h : nat) :
  0 < h ->
  Qlt_bool WHITE_PAGE_NUM_WHITE_ROWS_THRESHOLD
    (inject_Z (Z.of_nat n) / inject_Z (Z.of_nat h))%Q
  = (2 * h <? 5 * n).
Proof.
  intros Hh. unfold Qlt_bool, Qle_bool, Qdiv, Qmult, Qinv, inject_Z,
    WHITE_PAGE_NUM_WHITE_ROWS_THRESHOLD.
  cbn [Qnum Qden].
  destruct (Z.of_nat h) as [|p|p] eqn:E; try lia.
  cbn [Qnum Qden].
  destruct (Z.leb_spec (Z.of_nat n * 1 * 10) (4 * Z.pos (1 * p)));
    destruct (Nat.ltb_spec (2 * h) (5 * n)); simpl; auto; lia.
Qed.

Section SparseFacts.

Variable Pixel : Type.
Variable luma : Pixel -> Z.
Implicit Types (img : Image Pixel).

Lemma filter_is_white_row_means img :
  length (filter is_white (row_means luma img)) = num_blank luma img.
Proof.
  unfold row_means, num_blank, blank.
  induction (data img) as [|row rows IH]; simpl; auto.
  destruct (is_white (row_mean luma (size_w img) row)); simpl; auto.
Qed.

(** The fallback triggers when more than two rows in five are blank. *)
Lemma sparse_iff img :
  0 < size_h img -> sparse luma img = (2 * size_h img <? 5 * num_blank luma img).
Proof.
  intros Hh. unfold sparse. rewrite filter_is_white_row_means.
  now apply Qlt_bool_fraction.
Qed.

Lemma num_blank_all img :
  Forall (fun row => blank luma (size_w img) row = true) (data img) ->
  num_blank luma img = size_h img.
Proof.
  unfold num_blank, size_h. induction 1 as [|row rows Hrow _ IH]; simpl; auto.
  rewrite Hrow. simpl. now rewrite IH.
Qed.

Lemma num_blank_none img :
  Forall (fun row => blank luma (size_w img) row = false) (data img) ->
  num_blank luma img = 0.
Proof.
  unfold num_blank. induction 1 as [|row rows Hrow _ IH]; simpl; auto.
  now rewrite Hrow.
Qed.

Lemma flags_of_rows w (rows : list (list Pixel)) (b : bool) :
  Forall (fun row => blank luma w row = b) rows ->
  map is_white (map (row_mean luma w) rows) = repeat b (length rows).
Proof.
  induction 1 as [|row rows Hrow _ IH]; simpl; auto.
  unfold blank in Hrow. now rewrite Hrow, IH.
Qed.

Lemma scan_bands_app ws1 ws2 : forall y p,
  scan_bands (ws1 ++ ws2) y p
  = (fst (scan_bands ws2 (y + length ws1) (fst (scan_bands ws1 y p))),
     snd (scan_bands ws1 y p)
     ++ snd (scan_bands ws2 (y + length ws1) (fst (scan_bands ws1 y p)))).
Proof.
  induction ws1 as [|[|] ws1 IH]; intros y p; cbn [app scan_bands length].
  - rewrite Nat.add_0_r. cbn [fst snd app].
    now destruct (scan_bands ws2 y p).
  - rewrite IH. replace (S y + length ws1) with (y + S (length ws1)) by lia.
    destruct (scan_bands ws1 (S y) y) as [p1 b1]. cbn [fst snd].
    destruct (PANEL_WIDTH_THRESHOLD <=? y - p); reflexivity.
  - rewrite IH. replace (S y + length ws1) with (y + S (length ws1)) by lia.
    reflexivity.
Qed.

Lemma scan_bands_content n : forall y p,
  scan_bands (repeat false n) y p = (p, []).
Proof. induction n as [|n IH]; intros y p; simpl; auto. Qed.

(** A run of blank rows closes the band above it, if that is thick enough,
    and leaves the boundary on its last row. *)
Lemma scan_bands_gap n : forall y p,
  scan_bands (repeat true (S n)) y p
  = (y + n, if PANEL_WIDTH_THRESHOLD <=? y - p then [(p, y)] else []).
Proof.
  induction n as [|n IH]; intros y p.
  - cbn [repeat scan_bands]. now rewrite Nat.add_0_r.
  - change (repeat true (S (S n))) with (true :: repeat true (S n)).
    cbn [scan_bands]. rewrite IH.
    replace (S y - y) with 1 by lia.
    change (PANEL_WIDTH_THRESHOLD <=? 1) with false.
    f_equal. lia.
Qed.

End SparseFacts.

(** ** Pages that are one panel *)

Section SinglePanelFacts.

Variable Pixel : Type.
Variable luma : Pixel -> Z.
Implicit Types (img : Image Pixel) (page : ComicBookPage Pixel).

Lemma row_sum_app (a b : list Pixel) :
  row_sum luma (a ++ b) = (row_sum luma a + row_sum luma b)%Z.
Proof.
  unfold row_sum. induction a as [|x a IH]; simpl; auto.
  rewrite IH. lia.
Qed.

Lemma row_sum_rev (row : list Pixel) :
  row_sum luma (rev row) = row_sum luma row.
Proof.
  induction row as [|x row IH]; simpl; auto.
  rewrite row_sum_app, IH. unfold row_sum. simpl. lia.
Qed.

Lemma blank_rev w (row : list Pixel) :
  blank luma w (rev row) = blank luma w row.
Proof. unfold blank, row_mean. now rewrite row_sum_rev. Qed.

Lemma no_blank_row_ROTATE_270 img :
  no_blank_col luma img -> no_blank_row luma (ROTATE_270 img).
Proof.
  unfold no_blank_col, no_blank_row. simpl. intros H.
  apply Forall_map. eapply Forall_impl; [|exact H]. cbn beta.
  intros col Hcol. now rewrite blank_rev.
Qed.

Lemma row_bands_single img :
  PANEL_WIDTH_THRESHOLD <= size_h img -> no_blank_row luma img ->
  row_bands luma img = [(0, size_h img)].
Proof.
  intros Hh Hrows. unfold row_bands.
  destruct (sparse luma img); [reflexivity|].
  unfold row_means. rewrite flags_of_rows with (b := false) by exact Hrows.
  rewrite scan_bands_content.
  rewrite Nat.sub_0_r. fold (size_h img).
  apply Nat.leb_le in Hh. now rewrite Hh.
Qed.

Lemma col_bands_single img :
  rectangular img ->
  PANEL_WIDTH_THRESHOLD <= size_w img -> no_blank_col luma img ->
  col_bands luma img = [(0, size_w img)].
Proof.
  intros Hr Hw Hcols. unfold col_bands.
  rewrite <- (size_h_ROTATE_270 Hr). apply row_bands_single.
  - now rewrite size_h_ROTATE_270.
  - now apply no_blank_row_ROTATE_270.
Qed.

Lemma panel_grid_single img :
  rectangular img ->
  PANEL_WIDTH_THRESHOLD <= size_w img -> PANEL_WIDTH_THRESHOLD <= size_h img ->
  no_blank_row luma img -> no_blank_col luma img ->
  panel_grid luma img = [((0, size_h img), [(0, size_w img)])].
Proof.
  intros Hr Hw Hh Hrows Hcols. unfold panel_grid.
  rewrite row_bands_single by assumption. cbn [map].
  unfold row_crop. cbn [fst snd]. rewrite crop_all by exact Hr.
  now rewrite col_bands_single.
Qed.

(** A pure single-panel page comes back whole, renamed as panel (0, 0). *)
Lemma single_panel_split page :
  single_panel_page luma page ->
  exists s,
    get_new_filename (filename page) 0 0 = Ok s
    /\ ComicBookPage_split_panels luma page = Ok [mkPage (image page) s].
Proof.
  intros (Hwf & Hw & Hh & Hrows & Hcols & Hdot).
  destruct (@get_new_filename_dotted _ 0 0 Hdot) as [s Hs].
  exists s. split; [exact Hs|].
  rewrite split_panels_spec by exact Hwf.
  rewrite panel_grid_single by (try apply Hwf; assumption).
  cbn [cells enumerate length seq combine map concat app mapM make_panel].
  rewrite Hs. cbn [bind]. unfold panel_crop. cbn [fst snd].
  rewrite crop_all by apply Hwf. reflexivity.
Qed.

Lemma split_into_rows_degenerate img :
  size_w img = 0 \/ size_h img = 0 ->
  split_into_rows luma img = Raise ZeroDivisionError.
Proof.
  intros H. unfold split_into_rows, y_avg_sum_of, size_h in *.
  destruct (data img) as [|row rows] eqn:E.
  - reflexivity.
  - destruct H as [H|H]; [|discriminate].
    rewrite H. reflexivity.
Qed.

End SinglePanelFacts.

(** * The properties of the specification *)

Section PageProperties.

Variable Pixel : Type.
Variable luma : Pixel -> Z.
Implicit Types (img : Image Pixel) (page : ComicBookPage Pixel).

(** C4.  An image all of whose rows are blank, whatever its width and
    height, passes the sparse-page test and is returned as the single band:
    the row split yields exactly the image itself. *)
Theorem blank_page_is_one_band img :
  wf_image img ->
  Forall (fun row => blank luma (size_w img) row = true) (data img) ->
  sparse luma img = true /\ split_into_rows luma img = Ok [img].
Proof.
  intros Hwf Hall.
  assert (Hsparse : sparse luma img = true).
  { destruct Hwf as (Hr & Hw & Hh).
    rewrite sparse_iff, num_blank_all by assumption.
    apply Nat.ltb_lt. lia. }
  split; [exact Hsparse|].
  rewrite split_into_rows_spec by exact Hwf. unfold row_bands.
  rewrite Hsparse. unfold row_crop. cbn [map fst snd].
  rewrite crop_all by apply Hwf. reflexivity.
Qed.

(** C3, amended.  On a page made of a non-blank band, a blank gap and a
    non-blank band, and not sparse, the row split keeps the top band when it
    has thirty rows or more, and keeps the bottom band together with the last
    row of the gap when they have thirty rows or more; the height of the gap
    plays no part. *)
Theorem two_bands_row_split img (top gap bottom : list (list Pixel)) :
  wf_image img ->
  data img = top ++ gap ++ bottom ->
  gap <> [] ->
  Forall (fun row => blank luma (size_w img) row = false) top ->
  Forall (fun row => blank luma (size_w img) row = true) gap ->
  Forall (fun row => blank luma (size_w img) row = false) bottom ->
  sparse luma img = false ->
  split_into_rows luma img
  = Ok ((if PANEL_WIDTH_THRESHOLD <=? length top
         then [crop img (0, 0, size_w img, length top)] else [])
        ++ (if PANEL_WIDTH_THRESHOLD <=? S (length bottom)
            then [crop img (0, length top + length gap - 1,
                            size_w img, size_h img)]
            else [])).
Proof.
  intros Hwf Hdata Hgap Htop Hblank Hbottom Hsparse.
  rewrite split_into_rows_spec by exact Hwf. f_equal.
  destruct gap as [|g gap']; [contradiction|].
  set (n := length gap').
  assert (Hh : size_h img = length top + S n + length bottom).
  { unfold size_h. rewrite Hdata, !length_app. cbn [length]. fold n. lia. }
  unfold row_bands. rewrite Hsparse, Hh. unfold row_means.
  rewrite Hdata, !map_app.
  rewrite (@flags_of_rows _ luma _ top false Htop).
  rewrite (@flags_of_rows _ luma _ (g :: gap') true Hblank).
  rewrite (@flags_of_rows _ luma _ bottom false Hbottom).
  cbn [length]. fold n.
  rewrite !scan_bands_app, !scan_bands_content, !repeat_length.
  rewrite scan_bands_gap. cbn [fst snd app Nat.add].
  rewrite Nat.sub_0_r.
  replace (length top + S n + length bottom - (length top + n))
    with (S (length bottom)) by lia.
  replace (length top + S n - 1) with (length top + n) by lia.
  unfold row_crop.
  destruct (PANEL_WIDTH_THRESHOLD <=? length top);
    destruct (PANEL_WIDTH_THRESHOLD <=? S (length bottom)); reflexivity.
Qed.

(** C1, amended.  A page whose image is at least thirty pixels wide and
    high, with no blank row and no blank column, under a filename that has a
    dot, yields exactly one panel, equal to the whole page; a book of such
    pages splits into a book with one page for each of them, in order. *)
Theorem single_panel_page_yields_whole_page (book : ComicBook Pixel) :
  Forall (single_panel_page luma) (pages book) ->
  exists book',
    ComicBook_split_panels luma book = Ok book'
    /\ Forall2 (fun page page' =>
         ComicBookPage_split_panels luma page = Ok [page']
         /\ image page' = image page
         /\ get_new_filename (filename page) 0 0 = Ok (filename page'))
         (pages book) (pages book').
Proof.
  intros H. unfold ComicBook_split_panels.
  induction H as [|page ps Hpage _ (book' & E & F)]; cbn [mapM].
  - exists (mkBook []). split; [reflexivity | constructor].
  - destruct (single_panel_split Hpage) as (s & Hs & Es).
    rewrite Es. cbn [bind].
    destruct (mapM (ComicBookPage_split_panels luma) ps) as [outs|];
      cbn [bind] in *; [|discriminate].
    injection E as <-.
    exists (mkBook (mkPage (image page) s :: concat outs)).
    split; [reflexivity|]. cbn [pages] in *. constructor; auto.
Qed.

(** C9, amended.  On such a page splitting is idempotent: the first split
    yields one panel with the pixels of the page, and splitting that panel
    again yields one panel with the same pixels. *)
Theorem single_panel_split_idempotent page :
  single_panel_page luma page ->
  exists p1 p2,
    ComicBookPage_split_panels luma page = Ok [p1]
    /\ image p1 = image page
    /\ ComicBookPage_split_panels luma p1 = Ok [p2]
    /\ image p2 = image p1.
Proof.
  intros H. destruct (single_panel_split H) as (s & Hs & E).
  assert (H1 : single_panel_page luma (mkPage (image page) s)).
  { destruct H as (Hwf & Hw & Hh & Hrows & Hcols & Hdot).
    repeat split; try assumption; try apply Hwf.
    simpl. eapply get_new_filename_Ok_dotted. exact Hs. }
  destruct (single_panel_split H1) as (s' & Hs' & E').
  exists (mkPage (image page) s), (mkPage (image page) s').
  repeat split; assumption.
Qed.

(** C10, amended.  On a decoded page whose filename has no dot,
    [split_panels] raises [IndexError] when the image yields a panel and
    returns the empty list when it yields none; on a decoded page whose
    filename has a dot it returns. *)
Theorem undotted_filename_raises_on_first_panel page :
  wf_image (image page) ->
  (~ dotted (filename page) ->
   ComicBookPage_split_panels luma page
   = match cells (panel_grid luma (image page)) with
     | [] => Ok []
     | _ :: _ => Raise IndexError
     end)
  /\ (dotted (filename page) ->
      exists out, ComicBookPage_split_panels luma page = Ok out).
Proof.
  intros Hwf. split; intros Hdot.
  - now apply split_panels_undotted.
  - now apply split_panels_total.
Qed.

(** C8.  The panels come out in reading order: the row bands run from top
    to bottom, the column bands of each row band from left to right, and the
    pages are the crops of the cells of this grid, row after row, each named
    after its row and column; the quarter turn that finds the columns is
    undone by the opposite quarter turn. *)
Theorem panels_in_reading_order page :
  rectangular (image page) ->
  let img := image page in
  let grid := panel_grid luma img in
  ROTATE_90 (ROTATE_270 img) = img
  /\ (wf_image img -> dotted (filename page) ->
      exists out, ComicBookPage_split_panels luma page = Ok out)
  /\ (forall out,
        ComicBookPage_split_panels luma page = Ok out ->
        ascending (size_h img) (map fst grid)
        /\ Forall (fun g => ascending (size_w img) (snd g)) grid
        /\ Forall2 (fun cell p =>
             let '(row, col, rb, cb) := cell in
             image p = panel_crop img rb cb
             /\ get_new_filename (filename page) row col = Ok (filename p))
             (cells grid) out).
Proof.
  intros Hr img grid. split; [now apply ROTATE_90_ROTATE_270|]. split.
  - intros Hwf Hdot.
    now apply split_panels_total.
  - intros out Hout.
    assert (Hwf : wf_image img).
    { destruct (Nat.eq_dec (size_w img) 0) as [Hw|Hw];
        [|destruct (Nat.eq_dec (size_h img) 0) as [Hh|Hh]].
      - unfold ComicBookPage_split_panels in Hout.
        rewrite split_into_rows_degenerate in Hout by (left; exact Hw).
        discriminate.
      - unfold ComicBookPage_split_panels in Hout.
        rewrite split_into_rows_degenerate in Hout by (right; exact Hh).
        discriminate.
      - repeat split; [exact Hr | lia | lia]. }
    pose proof (row_bands_ascending luma img (proj2 (proj2 Hwf))) as Hrows.
    split; [|split].
    + unfold grid, panel_grid. rewrite map_map. cbn [fst].
      now rewrite map_id.
    + unfold grid, panel_grid. apply Forall_map.
      destruct Hrows as [Hall _].
      eapply Forall_impl; [|exact Hall]. cbn [fst snd]. intros rb Hrb.
      rewrite <- (size_w_row_crop img rb).
      apply (col_bands_ascending luma (wf_row_crop rb Hwf Hrb)).
    + rewrite split_panels_spec in Hout by exact Hwf.
      apply mapM_Ok_Forall2 in Hout.
      eapply Forall2_impl; [|exact Hout]. cbn beta.
      intros [[[row col] rb] cb] p Hp. unfold make_panel in Hp.
      destruct (get_new_filename (filename page) row col) as [s|];
        [|discriminate].
      cbn [bind] in Hp. injection Hp as <-. auto.
Qed.

End PageProperties.

(** ** Instances on sample pages *)

Lemma wf_tile : wf_image tile.
Proof. by_computation. Qed.

Lemma single_panel_tile : single_panel_page luma_rgb (mkPage tile (lit "p.jpg")).
Proof.
  unfold single_panel_page. cbn [image filename].
  split; [exact wf_tile|].
  split; [by_computation|]. split; [by_computation|].
  split; [by_computation|]. split; [by_computation|].
  unfold dotted. simpl. auto.
Defined.

Lemma blank_page_is_one_band_witness :
  sparse luma_rgb sheet = true /\ split_into_rows luma_rgb sheet = Ok [sheet].
Proof.
  apply (@blank_page_is_one_band RGB luma_rgb sheet); by_computation.
Defined.

(** C3, as stated, fails: two bands of thirty rows around a blank gap of
    five rows, on a page that is not sparse, come out as two panels. *)
Lemma narrow_gap_still_splits :
  data two_bands
  = repeat [BLACK] 30 ++ repeat [WHITE] 5 ++ repeat [BLACK] 30
  /\ sparse luma_rgb two_bands = false
  /\ exists upper lower,
       split_into_rows luma_rgb two_bands = Ok [upper; lower].
Proof.
  split; [reflexivity|]. split; [vm_compute; reflexivity|].
  eexists. eexists. vm_compute. reflexivity.
Qed.

(** The other way round: a blank gap of thirty rows under a band of ten
    rows leaves a single panel. *)
Lemma thin_band_is_dropped :
  data wide_gap
  = repeat [BLACK] 10 ++ repeat [WHITE] 30 ++ repeat [BLACK] 60
  /\ sparse luma_rgb wide_gap = false
  /\ exists lower, split_into_rows luma_rgb wide_gap = Ok [lower].
Proof.
  split; [reflexivity|]. split; [vm_compute; reflexivity|].
  eexists. vm_compute. reflexivity.
Qed.

Lemma two_bands_row_split_witness :
  split_into_rows luma_rgb two_bands
  = Ok [crop two_bands (0, 0, 1, 30); crop two_bands (0, 34, 1, 65)].
Proof.
  apply (@two_bands_row_split RGB luma_rgb two_bands
           (repeat [BLACK] 30) (repeat [WHITE] 5) (repeat [BLACK] 30)).
  - by_computation.
  - reflexivity.
  - discriminate.
  - by_computation.
  - by_computation.
  - by_computation.
  - vm_compute. reflexivity.
Defined.

(** C1, as stated, fails: a black strip twenty rows high, thinner than a
    panel, yields no panel at all; nor does a page a hundred rows high whose
    blank rows are twenty rows apart. *)
Lemma thin_page_yields_no_panel :
  wf_image strip
  /\ ComicBookPage_split_panels luma_rgb (mkPage strip (lit "p.jpg")) = Ok []
  /\ wf_image ruled
  /\ ComicBookPage_split_panels luma_rgb (mkPage ruled (lit "r.jpg")) = Ok [].
Proof.
  split; [by_computation|]. split; [vm_compute; reflexivity|].
  split; [by_computation | vm_compute; reflexivity].
Qed.

Lemma single_panel_page_yields_whole_page_witness :
  exists book',
    ComicBook_split_panels luma_rgb (mkBook [mkPage tile (lit "p.jpg")])
    = Ok book'
    /\ Forall2 (fun page page' =>
         ComicBookPage_split_panels luma_rgb page = Ok [page']
         /\ image page' = image page
         /\ get_new_filename (filename page) 0 0 = Ok (filename page'))
         [mkPage tile (lit "p.jpg")] (pages book').
Proof.
  apply (@single_panel_page_yields_whole_page RGB luma_rgb
           (mkBook [mkPage tile (lit "p.jpg")])).
  constructor; [exact single_panel_tile | constructor].
Defined.

(** C9, as stated, fails: a black page twenty pixels wide has no blank
    band, yet its first split yields no panel. *)
Lemma narrow_page_split_is_empty :
  no_blank_row luma_rgb pillar /\ no_blank_col luma_rgb pillar
  /\ ComicBookPage_split_panels luma_rgb (mkPage pillar (lit "q.jpg")) = Ok [].
Proof.
  split; [by_computation|]. split; [by_computation|].
  vm_compute. reflexivity.
Qed.

Lemma single_panel_split_idempotent_witness :
  exists p1 p2,
    ComicBookPage_split_panels luma_rgb (mkPage tile (lit "p.jpg")) = Ok [p1]
    /\ image p1 = tile
    /\ ComicBookPage_split_panels luma_rgb p1 = Ok [p2]
    /\ image p2 = image p1.
Proof.
  apply (@single_panel_split_idempotent RGB luma_rgb
           (mkPage tile (lit "p.jpg")) single_panel_tile).
Defined.

(** C10, as stated, fails: a page named [cover], without a dot, whose image
    yields no panel is split without any exception. *)
Lemma undotted_filename_without_panels_returns :
  ~ dotted (lit "cover")
  /\ ComicBookPage_split_panels luma_rgb (mkPage strip (lit "cover")) = Ok [].
Proof.
  split; [|vm_compute; reflexivity].
  unfold dotted. simpl. intuition discriminate.
Qed.

Lemma undotted_filename_raises_on_first_panel_witness :
  let page := mkPage tile (lit "cover") in
  (~ dotted (filename page) ->
   ComicBookPage_split_panels luma_rgb page
   = match cells (panel_grid luma_rgb (image page)) with
     | [] => Ok []
     | _ :: _ => Raise IndexError
     end)
  /\ (dotted (filename page) ->
      exists out, ComicBookPage_split_panels luma_rgb page = Ok out).
Proof.
  apply (@undotted_filename_raises_on_first_panel RGB luma_rgb
           (mkPage tile (lit "cover"))).
  by_computation.
Defined.

(** The page named [cover] with one panel: [IndexError]. *)
Lemma undotted_tile_raises :
  ComicBookPage_split_panels luma_rgb (mkPage tile (lit "cover"))
  = Raise IndexError.
Proof. vm_compute. reflexivity. Qed.

Lemma panels_in_reading_order_witness :
  let page := mkPage quad (lit "q.jpg") in
  let grid := panel_grid luma_rgb quad in
  ROTATE_90 (ROTATE_270 quad) = quad
  /\ (wf_image quad -> dotted (filename page) ->
      exists out, ComicBookPage_split_panels luma_rgb page = Ok out)
  /\ (forall out,
        ComicBookPage_split_panels luma_rgb page = Ok out ->
        ascending (size_h quad) (map fst grid)
        /\ Forall (fun g => ascending (size_w quad) (snd g)) grid
        /\ Forall2 (fun cell p =>
             let '(row, col, rb, cb) := cell in
             image p = panel_crop quad rb cb
             /\ get_new_filename (filename page) row col = Ok (filename p))
             (cells grid) out).
Proof.
  apply (@panels_in_reading_order RGB luma_rgb (mkPage quad (lit "q.jpg"))).
  by_computation.
Defined.

(** The four panels of [quad], as they come out: the upper row from left to
    right, then the lower row from left to right.  The lower row starts on
    the last row of the gutter, the right column on its last column. *)
Lemma quad_panels :
  cells (panel_grid luma_rgb quad)
  = [(0, 0, (0, 30), (0, 30)); (0, 1, (0, 30), (39, 70));
     (1, 0, (39, 70), (0, 30)); (1, 1, (39, 70), (39, 70))]
  /\ ComicBookPage_split_panels luma_rgb (mkPage quad (lit "q.jpg"))
     = Ok [mkPage (crop quad (0, 0, 30, 30)) (lit "q_0000_0000.jpg");
           mkPage (crop quad (39, 0, 70, 30)) (lit "q_0000_0001.jpg");
           mkPage (crop quad (0, 39, 30, 70)) (lit "q_0001_0000.jpg");
           mkPage (crop quad (39, 39, 70, 70)) (lit "q_0001_0001.jpg")].
Proof. split; vm_compute; reflexivity. Qed.

(** ** Loading and saving *)

Lemma sorted_spec (names : list str) :
  Sorted (fun a b => str_leb a b = true) (sorted names)
  /\ Permutation names (sorted names).
Proof.
  split; [apply StrSort.Sorted_sort | apply StrSort.Permuted_sort].
Qed.

Lemma norm_index_last n : 0 < n -> norm_index n (-1) = Ok (n - 1).
Proof.
  intros H. unfold norm_index. simpl.
  destruct (Z.ltb_spec (Z.of_nat n + -1) 0); [lia|].
  destruct (Z.leb_spec (Z.of_nat n) (Z.of_nat n + -1)); [lia|].
  simpl. f_equal. lia.
Qed.

Section ArchiveFacts.

Variable Pixel : Type.
Variable Opened : Type.
Variable Image_open : Bytes -> result Opened.
Variable convert_RGB : Opened -> result (Image Pixel).
Variable encode_jpeg : Image Pixel -> Bytes.
Implicit Types (a : Archive) (name : str) (page : ComicBookPage Pixel)
  (book : ComicBook Pixel) (fs : FS).

#[local] Abbreviation load := (load_entry Image_open convert_RGB).
#[local] Abbreviation from_archive :=
  (ComicBook_from_archive Image_open convert_RGB).
#[local] Abbreviation from_file :=
  (ComicBook_from_file Image_open convert_RGB).
#[local] Abbreviation image_of := (decoded Image_open convert_RGB).
#[local] Abbreviation loads := (loadable Image_open convert_RGB).
#[local] Abbreviation safe := (harmless Image_open convert_RGB).

(** An entry [Image.open] does not identify is skipped without an
    exception. *)
Lemma load_entry_unidentified a name :
  Image_open (read_entry a name) = Raise UnidentifiedImageError ->
  load a name = Ok [].
Proof.
  intros H. unfold load_entry, ComicBookPage_from_file.
  rewrite H. now destruct (endswith name (lit "/")).
Qed.

Lemma load_entry_Ok a name loaded :
  load a name = Ok loaded ->
  loaded = match (if endswith name (lit "/") then None
                  else image_of (read_entry a name)) with
           | Some img => [mkPage img name]
           | None => []
           end.
Proof.
  unfold load_entry, ComicBookPage_from_file, decoded.
  destruct (endswith name (lit "/")); cbn [negb].
  - now intros [= <-].
  - destruct (Image_open (read_entry a name)) as [opened|e].
    + destruct (convert_RGB opened); cbn [bind]; [|discriminate].
      now intros [= <-].
    + destruct e; cbn [bind]; try discriminate. now intros [= <-].
Qed.

Lemma loaded_filenames (names : list str) a : forall loaded,
  mapM (load a) names = Ok loaded ->
  map (@filename Pixel) (concat loaded) = filter (loads a) names.
Proof.
  induction names as [|name names IH]; intros loaded H.
  - injection H as <-. reflexivity.
  - cbn [mapM] in H.
    destruct (load a name) as [l|] eqn:E; cbn [bind] in H;
      [|discriminate].
    destruct (mapM (load a) names) as [ls|]; cbn [bind] in H;
      [|discriminate].
    injection H as <-. cbn [concat filter]. rewrite map_app, (IH ls eq_refl).
    apply load_entry_Ok in E. subst l.
    unfold loadable.
    destruct (endswith name (lit "/")); cbn [negb andb]; auto.
    destruct (image_of (read_entry a name)); reflexivity.
Qed.

Lemma loaded_In (names : list str) a page : forall loaded,
  mapM (load a) names = Ok loaded ->
  (In page (concat loaded)
   <-> In (filename page) names
       /\ endswith (filename page) (lit "/") = false
       /\ image_of (read_entry a (filename page)) = Some (image page)).
Proof.
  induction names as [|name names IH]; intros loaded H.
  - injection H as <-. simpl. tauto.
  - cbn [mapM] in H.
    destruct (load a name) as [l|] eqn:E; cbn [bind] in H;
      [|discriminate].
    destruct (mapM (load a) names) as [ls|]; cbn [bind] in H;
      [|discriminate].
    injection H as <-. cbn [concat]. rewrite in_app_iff, (IH ls eq_refl).
    apply load_entry_Ok in E. subst l. cbn [In]. split.
    + intros [Hin|Hin]; [|tauto].
      destruct (endswith name (lit "/")) eqn:D; [contradiction|].
      destruct (image_of (read_entry a name)) as [img|] eqn:I;
        [|contradiction].
      destruct Hin as [<-|[]]. cbn [filename image]. auto.
    + intros ([E0|Hin] & D & I); [|tauto].
      subst name. left. rewrite D, I. clear. destruct page. now left.
Qed.

Lemma from_archive_Ok a book :
  from_archive a = Ok book ->
  map (@filename Pixel) (pages book) = filter (loads a) (sorted (namelist a))
  /\ forall page,
       In page (pages book)
       <-> In (filename page) (namelist a)
           /\ endswith (filename page) (lit "/") = false
           /\ image_of (read_entry a (filename page)) = Some (image page).
Proof.
  unfold ComicBook_from_archive.
  destruct (mapM (load a) (sorted (namelist a))) as [loaded|] eqn:E;
    cbn [bind]; [|discriminate].
  intros [= <-]. cbn [pages]. split.
  - now apply loaded_filenames.
  - intros page. rewrite (@loaded_In _ a page _ E).
    pose proof (proj2 (sorted_spec (namelist a))) as P. split.
    + intros (Hin & H). split; [|exact H].
      apply (Permutation_in _ (Permutation_sym P)). exact Hin.
    + intros (Hin & H). split; [|exact H].
      apply (Permutation_in _ P). exact Hin.
Qed.

Lemma from_archive_total a :
  Forall (safe a) (namelist a) -> exists book, from_archive a = Ok book.
Proof.
  intros H. unfold ComicBook_from_archive.
  apply (Permutation_Forall (proj2 (sorted_spec (namelist a)))) in H.
  destruct (mapM_Ok_exists (load a) H) as [loaded E].
  rewrite E. cbn [bind]. eauto.
Qed.

Lemma page_save_jpeg page :
  jpeg_named (filename page) = true ->
  ComicBookPage_save encode_jpeg page = Ok (encode_jpeg (image page)).
Proof.
  unfold jpeg_named, ComicBookPage_save.
  destruct (getitem [] (split "."%char (filename page)) (-1)) as [field|];
    [|discriminate].
  cbn [bind]. intros ->. reflexivity.
Qed.

Lemma page_save_other page :
  jpeg_named (filename page) = false ->
  exists msg, ComicBookPage_save encode_jpeg page = Raise (ValueError msg).
Proof.
  unfold jpeg_named, ComicBookPage_save, getitem.
  pose proof (split_nonempty "."%char (filename page)) as Hne.
  rewrite norm_index_last by (destruct (split "."%char (filename page));
                               [contradiction | simpl; lia]).
  cbn [bind]. intros ->. eauto.
Qed.

(** Saving pages with JPEG filenames appends one entry a page, in order. *)
Lemma save_pages_jpeg (ps : list (ComicBookPage Pixel)) : forall a,
  Forall (fun page => jpeg_named (filename page) = true) ps ->
  save_pages encode_jpeg ps a
  = (a ++ map (fun page => (filename page, encode_jpeg (image page))) ps,
     Ok tt).
Proof.
  induction ps as [|page ps IH]; intros a H; cbn [save_pages map].
  - now rewrite app_nil_r.
  - inversion H as [|? ? Hpage Hps]; subst.
    rewrite page_save_jpeg by exact Hpage.
    rewrite IH by exact Hps. now rewrite <- app_assoc.
Qed.

(** Loading from a path whose extension is neither [.cbr] nor [.cbz] raises
    [ValueError] at once. *)
Lemma from_file_unknown_suffix (p : Path) fs :
  suffix p <> lit ".cbr" -> suffix p <> lit ".cbz" ->
  from_file (PathArg p) fs
  = Raise (ValueError (lit "Unknown file format '" ++ suffix p ++ lit "'")).
Proof.
  intros Hr Hz. unfold ComicBook_from_file, str_eqb.
  destruct (list_eq_dec ascii_dec (suffix p) (lit ".cbr")); [contradiction|].
  destruct (list_eq_dec ascii_dec (suffix p) (lit ".cbz")); [contradiction|].
  reflexivity.
Qed.

(** Saving to a path whose extension is neither [.cbr] nor [.cbz] writes
    nothing and raises nothing. *)
Lemma save_unknown_suffix book (p : Path) fs :
  suffix p <> lit ".cbr" -> suffix p <> lit ".cbz" ->
  ComicBook_save encode_jpeg book (PathArg p) fs = (fs, PathArg p, Ok tt).
Proof.
  intros Hr Hz. unfold ComicBook_save, str_eqb.
  destruct (list_eq_dec ascii_dec (suffix p) (lit ".cbr")); [contradiction|].
  destruct (list_eq_dec ascii_dec (suffix p) (lit ".cbz")); [contradiction|].
  reflexivity.
Qed.

(** C5, amended.  An entry [Image.open] cannot identify is skipped without
    an exception, so it does not stop the load: when no other entry raises,
    the book is returned; and in the book returned the entry is not among
    the pages, while every entry that is not a directory and decodes is. *)
Theorem undecodable_entry_skipped a name fs :
  In name (namelist a) ->
  Image_open (read_entry a name) = Raise UnidentifiedImageError ->
  load a name = Ok []
  /\ ((forall name', In name' (namelist a) -> name' <> name ->
         safe a name') ->
      exists book,
        from_file (ZipFile a) fs = Ok book
        /\ from_file (RarFile a) fs = Ok book)
  /\ (forall book,
        from_file (ZipFile a) fs = Ok book ->
        ~ In name (map (@filename Pixel) (pages book))
        /\ forall name' img,
             In name' (namelist a) ->
             endswith name' (lit "/") = false ->
             image_of (read_entry a name') = Some img ->
             In (mkPage img name') (pages book)).
Proof.
  intros Hin Hopen. split; [now apply load_entry_unidentified|]. split.
  - intros Hothers.
    destruct (@from_archive_total a) as [book E].
    { apply Forall_forall. intros name' Hin'.
      destruct (list_eq_dec ascii_dec name' name) as [->|Hne].
      - exists []. now apply load_entry_unidentified.
      - now apply Hothers. }
    exists book. split; exact E.
  - intros book E. apply from_archive_Ok in E. destruct E as [_ E]. split.
    + rewrite in_map_iff. intros (page & <- & Hpage).
      apply E in Hpage. destruct Hpage as (_ & _ & D).
      unfold decoded in D. rewrite Hopen in D.
      discriminate.
    + intros name' img Hin' D I. apply E. cbn [filename image]. auto.
Qed.

(** C6, amended.  The filenames of the loaded book are the entry names that
    are not directories and decode, in lexicographic order; when all of them
    are JPEG filenames, saving the loaded book to a [.cbz] path writes an
    archive with exactly these names, in this order. *)
Theorem load_then_save_filenames fs (input output : Path) (k : container) a :
  fs (path_str input) = Some (k, a) ->
  suffix input = lit (match k with Rar => ".cbr" | Zip => ".cbz" end) ->
  suffix output = lit ".cbz" ->
  Forall (safe a) (namelist a) ->
  let names := filter (loads a) (sorted (namelist a)) in
  Forall (fun name => jpeg_named name = true) names ->
  Sorted (fun x y => str_leb x y = true) (sorted (namelist a))
  /\ Permutation (namelist a) (sorted (namelist a))
  /\ exists book out,
       from_file (PathArg input) fs = Ok book
       /\ map (@filename Pixel) (pages book) = names
       /\ ComicBook_save encode_jpeg book (PathArg output) fs
          = (fs_write fs (path_str output) (Zip, out), PathArg output, Ok tt)
       /\ namelist out = names.
Proof.
  intros Hfs Hin Hout Hharmless names Hjpeg.
  split; [apply sorted_spec|]. split; [apply sorted_spec|].
  destruct (from_archive_total Hharmless) as [book E].
  exists book.
  exists (map (fun page => (filename page, encode_jpeg (image page)))
            (pages book)).
  assert (Hnames : map (@filename Pixel) (pages book) = names)
    by now apply from_archive_Ok.
  split; [|split; [exact Hnames|split]].
  - unfold ComicBook_from_file, open_read. rewrite Hin, Hfs.
    destruct k; exact E.
  - unfold ComicBook_save. rewrite Hout.
    change (str_eqb (lit ".cbz") (lit ".cbr")) with false.
    change (str_eqb (lit ".cbz") (lit ".cbz")) with true. cbv iota.
    rewrite save_pages_jpeg; [reflexivity|].
    rewrite <- Hnames in Hjpeg. now apply Forall_map in Hjpeg.
  - unfold namelist. rewrite map_map. exact Hnames.
Qed.

End ArchiveFacts.

(** C2.  A path with the extension [.zip] is refused by [from_file] with a
    [ValueError], but [save] accepts it: it returns without an exception and
    without writing anything. *)
Theorem save_to_unsupported_suffix_returns :
  ComicBook_from_file column_open column_convert (PathArg out_zip) sample_fs
  = Raise (ValueError (lit "Unknown file format '.zip'"))
  /\ ComicBook_save column_encode (mkBook [mkPage tile (lit "p.jpg")])
       (PathArg out_zip) sample_fs
     = (sample_fs, PathArg out_zip, Ok tt).
Proof. split; reflexivity. Qed.

Lemma undecodable_entry_skipped_witness :
  let a := sample_archive in
  let name := lit "a.txt" in
  let from_file := ComicBook_from_file column_open column_convert in
  load_entry column_open column_convert a name = Ok []
  /\ ((forall name', In name' (namelist a) -> name' <> name ->
         harmless column_open column_convert a name') ->
      exists book,
        from_file (ZipFile a) sample_fs = Ok book
        /\ from_file (RarFile a) sample_fs = Ok book)
  /\ (forall book,
        from_file (ZipFile a) sample_fs = Ok book ->
        ~ In name (map (@filename RGB) (pages book))
        /\ forall name' img,
             In name' (namelist a) ->
             endswith name' (lit "/") = false ->
             decoded column_open column_convert (read_entry a name')
             = Some img ->
             In (mkPage img name') (pages book)).
Proof.
  apply (@undecodable_entry_skipped RGB Bytes column_open column_convert
           sample_archive (lit "a.txt") sample_fs).
  - simpl. auto.
  - reflexivity.
Defined.

(** C5, as stated, fails: [Image.open] identifies the entry [c.jpg], but
    the file is truncated and its conversion to RGB raises [OSError], which
    [ComicBookPage.from_file] does not catch.  The bytes of the entry do not
    decode to an image, and the load of the archive raises: the entry is
    not skipped, and the entry [a.jpg], which decodes, is not loaded. *)
Lemma unreadable_entry_aborts_load :
  In (lit "c.jpg") (namelist truncated_archive)
  /\ endswith (lit "c.jpg") (lit "/") = false
  /\ column_open (read_entry truncated_archive (lit "c.jpg"))
     = Ok [Byte.x00]
  /\ decoded column_open strict_convert
       (read_entry truncated_archive (lit "c.jpg")) = None
  /\ decoded column_open strict_convert
       (read_entry truncated_archive (lit "a.jpg"))
     = Some (mkImage 1 [[grey Byte.x01]])
  /\ ComicBook_from_file column_open strict_convert
       (ZipFile truncated_archive) sample_fs
     = Raise (OSError (lit "image file is truncated"))
  /\ ComicBook_from_file column_open strict_convert
       (RarFile truncated_archive) sample_fs
     = Raise (OSError (lit "image file is truncated")).
Proof.
  split; [simpl; auto|]. repeat split; vm_compute; reflexivity.
Qed.

(** The book loaded from the sample archive: the page [b.jpg] alone. *)
Lemma sample_archive_loaded :
  ComicBook_from_file column_open column_convert (ZipFile sample_archive)
    sample_fs
  = Ok (mkBook [mkPage (mkImage 1 [[grey Byte.x01]; [grey Byte.x02]])
                  (lit "b.jpg")]).
Proof. vm_compute. reflexivity. Qed.

(** C6, as stated, fails: the text file [a.txt] is an entry that is not a
    directory, but loading [in.cbz] and saving it as [out.cbz] writes the
    single name [b.jpg].  And the page [a.png] of [png.cbz] loads, but
    saving it raises [ValueError]. *)
Lemma undecodable_entry_breaks_filename_roundtrip :
  filter (fun name => negb (endswith name (lit "/")))
    (sorted (namelist sample_archive))
  = [lit "a.txt"; lit "b.jpg"]
  /\ (exists book,
        ComicBook_from_file column_open column_convert (PathArg in_cbz)
          sample_fs = Ok book
        /\ option_map (fun f => namelist (snd f))
             (fst (fst (ComicBook_save column_encode book (PathArg out_cbz)
                          sample_fs)) (lit "out.cbz"))
           = Some [lit "b.jpg"])
  /\ (exists book,
        ComicBook_from_file column_open column_convert (PathArg png_cbz)
          sample_fs = Ok book
        /\ map (@filename RGB) (pages book) = [lit "a.png"]
        /\ snd (ComicBook_save column_encode book (PathArg out_cbz) sample_fs)
           = Raise (ValueError (lit "Unknown file format 'PNG' to save"))).
Proof.
  split; [vm_compute; reflexivity|]. split.
  - eexists. split; vm_compute; reflexivity.
  - eexists. split; [vm_compute; reflexivity|].
    split; vm_compute; reflexivity.
Qed.

(** ** Filenames of a split book *)

Lemma Forall2_NoDup_map {A K B} (R : A -> K -> Prop) (f : A -> B)
  (l : list A) (ks : list K) :
  Forall2 R l ks -> NoDup ks ->
  (forall a k a' k', R a k -> R a' k' -> f a = f a' -> k = k') ->
  NoDup (map f l).
Proof.
  intros H Hks Hinj. induction H as [|a k l ks Hak Hl IH]; simpl.
  - constructor.
  - inversion Hks as [|? ? Hk Hks']; subst. constructor; auto.
    rewrite in_map_iff. intros (a' & E & Hin).
    apply Hk. clear IH Hks Hks' Hk.
    induction Hl as [|a0 k0 l ks H0 Hl IH]; [contradiction|].
    destruct Hin as [->|Hin].
    + left. symmetry. eapply Hinj; eauto.
    + right. auto.
Qed.

Lemma Forall2_Forall_r {A K} (R : A -> K -> Prop) (P : A -> Prop)
  (l : list A) (ks : list K) :
  Forall2 R l ks -> (forall a k, In k ks -> R a k -> P a) -> Forall P l.
Proof.
  induction 1 as [|a k l ks Hak _ IH]; intros HP; constructor.
  - apply (HP a k); simpl; auto.
  - apply IH. intros a' k' Hin. apply HP. simpl. auto.
Qed.

Section BookFacts.

Variable Pixel : Type.
Variable luma : Pixel -> Z.
Implicit Types (page : ComicBookPage Pixel) (book : ComicBook Pixel)
  (name : str).

Lemma cols_keys name row (cols : list (Image Pixel)) : forall c0 outs,
  mapM (fun '(col, panel_final) =>
          new_filename <- get_new_filename name row col ;;
          Ok (mkPage panel_final new_filename))
    (enumerate_from c0 cols) = Ok outs ->
  Forall2 (named name) outs (map (pair row) (seq c0 (length cols))).
Proof.
  induction cols as [|panel cols IH]; intros c0 outs H.
  - injection H as <-. constructor.
  - rewrite enumerate_from_cons in H. cbn [mapM] in H.
    destruct (get_new_filename name row c0) as [s|] eqn:E;
      cbn [bind] in H; [|discriminate].
    destruct (mapM _ (enumerate_from (S c0) cols)) as [outs'|] eqn:E';
      cbn [bind] in H; [|discriminate].
    injection H as <-. cbn [length seq map]. constructor.
    + exact E.
    + now apply IH.
Qed.

Lemma rows_keys name (rows : list (Image Pixel)) : forall r0 grid,
  mapM (fun '(row, panel_row) =>
          panel_cols <- split_into_cols luma panel_row ;;
          mapM (fun '(col, panel_final) =>
                  new_filename <- get_new_filename name row col ;;
                  Ok (mkPage panel_final new_filename))
            (enumerate panel_cols))
    (enumerate_from r0 rows) = Ok grid ->
  exists keys,
    Forall2 (named name) (concat grid) keys
    /\ NoDup keys
    /\ Forall (fun k => r0 <= fst k) keys.
Proof.
  induction rows as [|panel_row rows IH]; intros r0 grid H.
  - injection H as <-. exists []. repeat constructor.
  - rewrite enumerate_from_cons in H. cbn [mapM] in H.
    destruct (split_into_cols luma panel_row) as [cols|];
      cbn [bind] in H; [|discriminate].
    destruct (mapM _ (enumerate cols)) as [g|] eqn:Eg;
      cbn [bind] in H; [|discriminate].
    destruct (mapM _ (enumerate_from (S r0) rows)) as [grid'|] eqn:Er;
      cbn [bind] in H; [|discriminate].
    injection H as <-.
    apply (cols_keys name r0 cols 0) in Eg.
    destruct (IH _ _ Er) as (keys' & F' & N' & L').
    exists (map (pair r0) (seq 0 (length cols)) ++ keys').
    cbn [concat]. split; [|split].
    + now apply Forall2_app.
    + apply NoDup_app; auto.
      * apply NoDup_map_NoDup_ForallPairs; [|apply seq_NoDup].
        intros x y _ _ E. now injection E.
      * intros k Hk Hk'. apply in_map_iff in Hk.
        destruct Hk as (c & <- & _).
        apply (proj1 (Forall_forall _ _) L') in Hk'. simpl in Hk'. lia.
    + apply Forall_app. split.
      * apply Forall_map, Forall_forall. intros c _. simpl. lia.
      * eapply Forall_impl; [|exact L']. cbn beta. intros k Hk. lia.
Qed.

(** The panels of a page are named after distinct pairs of indices. *)
Lemma page_keys page out :
  ComicBookPage_split_panels luma page = Ok out ->
  exists keys, Forall2 (named (filename page)) out keys /\ NoDup keys.
Proof.
  unfold ComicBookPage_split_panels. intros H.
  destruct (split_into_rows luma (image page)) as [rows|];
    cbn [bind] in H; [|discriminate].
  destruct (mapM _ (enumerate rows)) as [grid|] eqn:E;
    cbn [bind] in H; [|discriminate].
  injection H as <-.
  destruct (rows_keys (filename page) rows 0 E) as (keys & F & N & _).
  eauto.
Qed.

Lemma book_keys (ps : list (ComicBookPage Pixel)) : forall outs,
  mapM (ComicBookPage_split_panels luma) ps = Ok outs ->
  NoDup (map (@filename Pixel) ps) ->
  exists keys : list (str * (nat * nat)),
    Forall2 (fun p k => named (fst k) p (snd k)) (concat outs) keys
    /\ NoDup keys
    /\ Forall (fun k => In (fst k) (map (@filename Pixel) ps)) keys.
Proof.
  induction ps as [|page ps IH]; intros outs H Hnames.
  - injection H as <-. exists []. repeat constructor.
  - cbn [mapM] in H.
    destruct (ComicBookPage_split_panels luma page) as [out|] eqn:E;
      cbn [bind] in H; [|discriminate].
    destruct (mapM _ ps) as [outs'|] eqn:E'; cbn [bind] in H; [|discriminate].
    injection H as <-. cbn [map] in Hnames.
    inversion Hnames as [|? ? Hfresh Hnames']; subst.
    destruct (@page_keys page out E) as (keys & F & N).
    destruct (IH _ eq_refl Hnames') as (keys' & F' & N' & L').
    exists (map (pair (filename page)) keys ++ keys').
    cbn [concat]. split; [|split].
    + apply Forall2_app; auto.
      clear -F. induction F; cbn [map]; constructor; auto.
    + apply NoDup_app; auto.
      * apply NoDup_map_NoDup_ForallPairs; auto.
        intros x y _ _ Exy. now injection Exy.
      * intros k Hk Hk'. apply in_map_iff in Hk.
        destruct Hk as (c & <- & _).
        apply (proj1 (Forall_forall _ _) L') in Hk'. now apply Hfresh.
    + apply Forall_app. split.
      * apply Forall_map, Forall_forall. intros c _. cbn [map fst]. now left.
      * eapply Forall_impl; [|exact L']. cbn beta. intros k Hk.
        cbn [map]. now right.
Qed.

(** C7, amended.  When the filenames of the pages of a book are pairwise
    distinct, so are the filenames of the pages of the split book, and each
    of them is the filename of a page of the book with a row and a column
    index inserted. *)
Theorem split_filenames_distinct book book' :
  NoDup (map (@filename Pixel) (pages book)) ->
  ComicBook_split_panels luma book = Ok book' ->
  NoDup (map (@filename Pixel) (pages book'))
  /\ Forall (fun p' =>
       exists p row col,
         In p (pages book)
         /\ get_new_filename (filename p) row col = Ok (filename p'))
       (pages book').
Proof.
  intros Hnames H. unfold ComicBook_split_panels in H.
  destruct (mapM (ComicBookPage_split_panels luma) (pages book))
    as [outs|] eqn:E; cbn [bind] in H; [|discriminate].
  injection H as <-. cbn [pages].
  destruct (@book_keys (pages book) outs E Hnames) as (keys & F & N & L).
  split.
  - apply (Forall2_NoDup_map (@filename Pixel) F N).
    intros a [n1 [r1 c1]] a' [n2 [r2 c2]] Ha Ha' Eq.
    unfold named in *. cbn [fst snd] in *. rewrite Eq in Ha.
    destruct (get_new_filename_inj _ _ _ _ _ _ Ha Ha') as (-> & -> & ->).
    reflexivity.
  - apply (Forall2_Forall_r _ F). intros p' [n [r c]] Hin Hp'.
    apply (proj1 (Forall_forall _ _) L) in Hin. cbn [fst] in Hin.
    apply in_map_iff in Hin. destruct Hin as (p & <- & Hp).
    exists p, r, c. auto.
Qed.

End BookFacts.

(** ** Instances on sample books *)

(** C7, as stated, fails: two pages stored under the same filename split
    into two pages with the same filename. *)
Lemma duplicate_parent_names_collide :
  exists book',
    ComicBook_split_panels luma_rgb twins = Ok book'
    /\ map (@filename RGB) (pages book')
       = [lit "a_0000_0000.jpg"; lit "a_0000_0000.jpg"]
    /\ ~ NoDup (map (@filename RGB) (pages book')).
Proof.
  eexists. split; [vm_compute; reflexivity|]. split; [reflexivity|].
  cbn [pages map filename]. intros H.
  inversion H as [|? ? Hin _]; subst. apply Hin. now left.
Qed.

Lemma split_filenames_distinct_witness :
  NoDup (map (@filename RGB) (pages pair_split))
  /\ Forall (fun p' =>
       exists p row col,
         In p (pages pair_book)
         /\ get_new_filename (filename p) row col = Ok (filename p'))
       (pages pair_split).
Proof.
  apply (@split_filenames_distinct RGB luma_rgb pair_book pair_split).
  - cbn [pair_book pages map filename].
    constructor; [|constructor; [|constructor]]; simpl;
      intuition discriminate.
  - vm_compute. reflexivity.
Defined.

Lemma load_then_save_filenames_witness :
  exists book out,
    ComicBook_from_file column_open column_convert (PathArg in_cbz) sample_fs
    = Ok book
    /\ map (@filename RGB) (pages book) = [lit "b.jpg"]
    /\ ComicBook_save column_encode book (PathArg out_cbz) sample_fs
       = (fs_write sample_fs (lit "out.cbz") (Zip, out), PathArg out_cbz,
          Ok tt)
    /\ namelist out = [lit "b.jpg"].
Proof.
  apply (@load_then_save_filenames RGB Bytes column_open column_convert
           column_encode sample_fs in_cbz out_cbz Zip sample_archive).
  - reflexivity.
  - reflexivity.
  - reflexivity.
  - repeat constructor; eexists; vm_compute; reflexivity.
  - vm_compute. repeat constructor.
Defined.

(** * Further properties of the code *)

(** ** The row segmenter *)

Lemma Qle_bool_mean (s : Z) (w : nat) :
  0 < w ->
  Qle_bool WHITE_THRESHOLD (inject_Z s / inject_Z (Z.of_nat w))%Q
  = (235 * Z.of_nat w <=? s)%Z.
Proof.
  intros Hw. unfold Qle_bool, Qdiv, Qmult, Qinv, inject_Z, WHITE_THRESHOLD.
  cbn [Qnum Qden].
  destruct (Z.of_nat w) as [|p|p] eqn:E; try lia.
  cbn [Qnum Qden inject_Z].
  destruct (Z.leb_spec (235 * Z.pos (1 * p)) (s * 1 * 1));
    destruct (Z.leb_spec (235 * Z.pos p) s); auto; lia.
Qed.

Section SegmenterProperties.

Variable Pixel : Type.
Variable luma : Pixel -> Z.
Implicit Types (img : Image Pixel).

Lemma split_into_rows_total img :
  0 < size_w img -> 0 < size_h img ->
  exists out, split_into_rows luma img = Ok out.
Proof.
  intros Hw Hh. unfold split_into_rows.
  rewrite y_avg_sum_of_ok by exact Hw. cbn [bind].
  unfold truediv. destruct (Z.eqb_spec (Z.of_nat (size_h img)) 0); [lia|].
  cbn [bind].
  destruct (Qlt_bool _ _); [eauto|].
  destruct (scan img (row_means luma img) 0 0 []) as [p res].
  destruct (PANEL_WIDTH_THRESHOLD <=? size_h img - p); eauto.
Qed.

(** X1.  [split_into_rows] raises exactly on an image without pixels: with
    width or height zero it raises [ZeroDivisionError], and with both
    positive it returns. *)
Theorem split_into_rows_raises_iff_empty img :
  (size_w img = 0 \/ size_h img = 0 ->
   split_into_rows luma img = Raise ZeroDivisionError)
  /\ (0 < size_w img /\ 0 < size_h img ->
      exists out, split_into_rows luma img = Ok out).
Proof.
  split.
  - apply split_into_rows_degenerate.
  - intros [Hw Hh]. now apply split_into_rows_total.
Qed.

(** X2.  A row is blank exactly when the sum of its luminances is at least
    235 times the width. *)
Theorem blank_iff_sum w (row : list Pixel) :
  0 < w ->
  blank luma w row = (235 * Z.of_nat w <=? row_sum luma row)%Z.
Proof.
  intros Hw. unfold blank, is_white, row_mean. now apply Qle_bool_mean.
Qed.

(** X3.  The fallback for sparse pages: when more than two rows in five are
    blank the image comes back whole, whatever it shows; at exactly two in
    five the rows are scanned. *)
Theorem sparse_page_comes_back_whole img :
  wf_image img ->
  (2 * size_h img < 5 * num_blank luma img ->
   split_into_rows luma img = Ok [img])
  /\ (5 * num_blank luma img <= 2 * size_h img ->
      split_into_rows luma img
      = Ok (map (row_crop img)
              (let '(p, bands) :=
                 scan_bands (map is_white (row_means luma img)) 0 0 in
               if PANEL_WIDTH_THRESHOLD <=? size_h img - p
               then bands ++ [(p, size_h img)] else bands))).
Proof.
  intros Hwf. pose proof Hwf as (Hr & Hw & Hh).
  rewrite split_into_rows_spec by exact Hwf. unfold row_bands.
  rewrite sparse_iff by exact Hh. split; intros H.
  - apply Nat.ltb_lt in H. rewrite H. unfold row_crop. cbn [map fst snd].
    now rewrite crop_all.
  - destruct (Nat.ltb_spec (2 * size_h img) (5 * num_blank luma img));
      [lia | reflexivity].
Qed.

Lemma scan_bands_thick whites : forall y p,
  Forall (fun b => PANEL_WIDTH_THRESHOLD <= snd b - fst b)
    (snd (scan_bands whites y p)).
Proof.
  induction whites as [|[|] whites IH]; intros y p; cbn [scan_bands].
  - constructor.
  - specialize (IH (S y) y).
    destruct (scan_bands whites (S y) y) as [p' bands]. cbn [fst snd] in *.
    destruct (Nat.leb_spec PANEL_WIDTH_THRESHOLD (y - p)); auto.
  - apply IH.
Qed.

Lemma row_bands_thick img :
  sparse luma img = false ->
  Forall (fun b => PANEL_WIDTH_THRESHOLD <= snd b - fst b)
    (row_bands luma img).
Proof.
  intros Hs. unfold row_bands. rewrite Hs.
  pose proof (scan_bands_thick (map is_white (row_means luma img)) 0 0) as H.
  destruct (scan_bands (map is_white (row_means luma img)) 0 0) as [p bands].
  cbn [snd] in H.
  destruct (Nat.leb_spec PANEL_WIDTH_THRESHOLD (size_h img - p)); auto.
  apply Forall_app. split; auto.
Qed.

Lemma row_bands_sparse img :
  sparse luma img = true -> row_bands luma img = [(0, size_h img)].
Proof. intros Hs. unfold row_bands. now rewrite Hs. Qed.

(** Inside a band the scan closes, after its first row, no row is blank. *)
Lemma scan_bands_interior (flag : nat -> bool) n : forall y p,
  (forall i, p < i < y -> flag i = false) ->
  (forall b i, In b (snd (scan_bands (map flag (seq y n)) y p)) ->
               fst b < i < snd b -> flag i = false)
  /\ (forall i, fst (scan_bands (map flag (seq y n)) y p) < i < y + n ->
                flag i = false).
Proof.
  induction n as [|n IH]; intros y p Hp; cbn [seq map scan_bands].
  - cbn [fst snd]. split; [contradiction|].
    intros i Hi. apply Hp. lia.
  - destruct (flag y) eqn:Fy.
    + destruct (IH (S y) y) as [IH1 IH2]; [intros i Hi; lia|].
      destruct (scan_bands (map flag (seq (S y) n)) (S y) y) as [p' bands].
      cbn [fst snd] in *. split.
      * intros b i Hb Hi.
        destruct (PANEL_WIDTH_THRESHOLD <=? y - p); [|now apply (IH1 b)].
        destruct Hb as [<-|Hb]; [|now apply (IH1 b)].
        cbn [fst snd] in Hi. now apply Hp.
      * intros i Hi. apply IH2. lia.
    + destruct (IH (S y) p) as [IH1 IH2].
      { intros i Hi. destruct (Nat.eq_dec i y) as [->|Hne]; [exact Fy|].
        apply Hp. lia. }
      split.
      * exact IH1.
      * intros i Hi. apply IH2. lia.
Qed.

Lemma flags_as_map img :
  map is_white (row_means luma img)
  = map (blank_at luma img) (seq 0 (size_h img)).
Proof.
  unfold row_means, blank_at, size_h.
  generalize (size_w img). intros w.
  induction (data img) as [|row rows IH] using rev_ind; [reflexivity|].
  rewrite !map_app, length_app. cbn [length map].
  rewrite Nat.add_1_r, seq_S, map_app. cbn [map Nat.add].
  rewrite nth_error_app2, Nat.sub_diag by apply le_n. cbn [nth_error].
  f_equal.
  rewrite IH. apply map_ext_in. intros i Hi. apply in_seq in Hi.
  rewrite nth_error_app1 by lia. reflexivity.
Qed.

(** X4.  On a page that is not sparse the bands are cut at blank rows
    only: they are crops of the full width, run from top to bottom without
    overlap, each is at least thirty rows high, and after its first row no
    band holds a blank row. *)
Theorem bands_are_thick_runs_between_blank_rows img :
  wf_image img ->
  sparse luma img = false ->
  exists bands,
    split_into_rows luma img
    = Ok (map (fun b => crop img (0, fst b, size_w img, snd b)) bands)
    /\ ascending (size_h img) bands
    /\ Forall (fun b => PANEL_WIDTH_THRESHOLD <= snd b - fst b) bands
    /\ forall b i, In b bands -> fst b < i < snd b -> blank_at luma img i = false.
Proof.
  intros Hwf Hs. exists (row_bands luma img).
  split; [now apply split_into_rows_spec|].
  split; [apply row_bands_ascending, Hwf|].
  split; [now apply row_bands_thick|].
  unfold row_bands. rewrite Hs, flags_as_map.
  destruct (@scan_bands_interior (blank_at luma img) (size_h img) 0 0)
    as [H1 H2]; [intros i Hi; lia|].
  destruct (scan_bands (map (blank_at luma img) (seq 0 (size_h img))) 0 0)
    as [p bands]. cbn [fst snd] in *.
  intros b i Hb Hi.
  destruct (PANEL_WIDTH_THRESHOLD <=? size_h img - p); [|now apply (H1 b)].
  apply in_app_or in Hb. destruct Hb as [Hb|[<-|[]]]; [now apply (H1 b)|].
  cbn [fst snd] in Hi. apply H2. lia.
Qed.

(** X5.  An image without a blank row is never cut: it comes back whole
    when it is at least thirty rows high, and yields nothing when it is
    lower. *)
Theorem uncut_image_whole_or_nothing img :
  wf_image img ->
  no_blank_row luma img ->
  split_into_rows luma img
  = Ok (if PANEL_WIDTH_THRESHOLD <=? size_h img then [img] else []).
Proof.
  intros Hwf Hrows. pose proof Hwf as (Hr & Hw & Hh).
  rewrite split_into_rows_spec by exact Hwf. f_equal.
  unfold row_bands. rewrite sparse_iff by exact Hh.
  rewrite (@num_blank_none _ luma img Hrows), Nat.mul_0_r.
  destruct (Nat.ltb_spec (2 * size_h img) 0); [lia|].
  unfold row_means. rewrite flags_of_rows with (b := false) by exact Hrows.
  rewrite scan_bands_content, Nat.sub_0_r. fold (size_h img).
  destruct (PANEL_WIDTH_THRESHOLD <=? size_h img); [|reflexivity].
  unfold row_crop. cbn [map app fst snd]. now rewrite crop_all.
Qed.

(** X6.  [split_into_cols] cuts the image itself: its panels are the crops
    of full height at column bands that run from left to right without
    overlap, and each is at least thirty columns wide unless the turned
    image is sparse, in which case the image comes back whole. *)
Theorem columns_are_crops_left_to_right img :
  wf_image img ->
  exists bands,
    split_into_cols luma img
    = Ok (map (fun b => crop img (fst b, 0, snd b, size_h img)) bands)
    /\ ascending (size_w img) bands
    /\ (sparse luma (ROTATE_270 img) = true ->
        split_into_cols luma img = Ok [img])
    /\ (sparse luma (ROTATE_270 img) = false ->
        Forall (fun b => PANEL_WIDTH_THRESHOLD <= snd b - fst b) bands).
Proof.
  intros Hwf. exists (col_bands luma img).
  split; [now apply split_into_cols_spec|].
  split; [now apply col_bands_ascending|]. split.
  - intros Hs. rewrite split_into_cols_spec by exact Hwf.
    unfold col_bands. rewrite (@row_bands_sparse _ Hs). cbn [map fst snd].
    rewrite size_h_ROTATE_270, crop_all by apply Hwf. reflexivity.
  - intros Hs. now apply row_bands_thick.
Qed.

End SegmenterProperties.

(** ** The panel extractor *)

Lemma cells_In (grid : list ((nat * nat) * list (nat * nat)))
  row col rb cb :
  In (row, col, rb, cb) (cells grid) ->
  exists cbs, In (rb, cbs) grid /\ In cb cbs.
Proof.
  unfold cells. rewrite in_concat. intros (l & Hl & Hin).
  apply in_map_iff in Hl. destruct Hl as ([i [rb' cbs]] & <- & Hg).
  apply in_map_iff in Hin. destruct Hin as ([j cb'] & E & Hc).
  injection E as <- <- <- <-.
  apply in_combine_r in Hg, Hc. eauto.
Qed.

Section ExtractorProperties.

Variable Pixel : Type.
Variable luma : Pixel -> Z.
Implicit Types (img : Image Pixel) (page : ComicBookPage Pixel).

Lemma row_band_height img b :
  0 < size_h img -> In b (row_bands luma img) ->
  fst b < snd b <= size_h img
  /\ Nat.min PANEL_WIDTH_THRESHOLD (size_h img) <= snd b - fst b.
Proof.
  intros Hh Hb.
  destruct (row_bands_ascending luma img Hh) as [Hall _].
  pose proof (proj1 (Forall_forall _ _) Hall b Hb) as Hin. cbn beta in Hin.
  split; [exact Hin|].
  destruct (sparse luma img) eqn:Hs.
  - rewrite row_bands_sparse in Hb by exact Hs.
    destruct Hb as [<-|[]]. cbn [fst snd]. lia.
  - pose proof (proj1 (Forall_forall _ _) (row_bands_thick luma img Hs) b Hb)
      as Ht.
    cbn beta in Ht. lia.
Qed.

(** X7.  No panel is a sliver: every page [split_panels] returns holds a
    full rectangle of pixels cut out of the page, and in each direction it
    is at least thirty pixels, or the whole page when the page is smaller. *)
Theorem panels_are_never_slivers page out :
  wf_image (image page) ->
  ComicBookPage_split_panels luma page = Ok out ->
  Forall (fun p =>
    wf_image (image p)
    /\ Nat.min PANEL_WIDTH_THRESHOLD (size_w (image page))
       <= size_w (image p) <= size_w (image page)
    /\ Nat.min PANEL_WIDTH_THRESHOLD (size_h (image page))
       <= size_h (image p) <= size_h (image page)) out.
Proof.
  intros Hwf Hout. pose proof Hwf as (Hr & Hw & Hh).
  rewrite split_panels_spec in Hout by exact Hwf.
  apply mapM_Ok_Forall2 in Hout.
  apply (Forall2_Forall_r _ (Forall2_flip Hout)).
  intros p [[[row col] rb] cb] Hcell Hp. unfold make_panel in Hp.
  destruct (get_new_filename (filename page) row col) as [s|];
    [|discriminate].
  cbn [bind] in Hp. injection Hp as <-. cbn [image].
  apply cells_In in Hcell. destruct Hcell as (cbs & Hg & Hcb).
  unfold panel_grid in Hg. apply in_map_iff in Hg.
  destruct Hg as (rb' & E & Hrb). injection E as -> <-.
  destruct (row_band_height (image page) rb Hh Hrb) as [Hrb1 Hrb2].
  pose proof (wf_row_crop rb Hwf Hrb1) as Hwf'.
  unfold col_bands in Hcb.
  destruct (@row_band_height (ROTATE_270 (row_crop (image page) rb)) cb)
    as [Hcb1 Hcb2]; [apply (wf_ROTATE_270 Hwf') | exact Hcb |].
  rewrite size_h_ROTATE_270, size_w_row_crop in Hcb1, Hcb2 by apply Hwf'.
  assert (Sw : size_w (panel_crop (image page) rb cb) = snd cb - fst cb)
    by reflexivity.
  assert (Sh : size_h (panel_crop (image page) rb cb) = snd rb - fst rb).
  { unfold panel_crop, crop, size_h in *. cbn [data fst snd].
    rewrite length_map, length_slice. lia. }
  rewrite Sw, Sh. repeat split; try lia.
  apply (@rectangular_crop _ (image page)
           (fst cb, fst rb, snd cb, snd rb) Hr). lia.
Qed.

End ExtractorProperties.

(** ** Filenames *)

Lemma getitem_last {A} (d : A) (l : list A) (x : A) :
  getitem d (l ++ [x]) (-1) = Ok x.
Proof.
  unfold getitem. rewrite norm_index_last by (rewrite length_app; simpl; lia).
  cbn [bind]. rewrite length_app. cbn [length].
  replace (length l + 1 - 1) with (length l + 0) by lia.
  rewrite app_nth2_plus. reflexivity.
Qed.

Lemma split_last_field sep (stem ext : str) :
  ~ In sep ext ->
  exists field fields, split sep (stem ++ sep :: ext) = field :: fields ++ [ext].
Proof.
  intros Hext. induction stem as [|c stem (f & fs & IH)]; cbn [app split].
  - rewrite Ascii.eqb_refl, split_free by exact Hext. exists [], []. reflexivity.
  - rewrite IH. destruct (Ascii.eqb c sep).
    + exists [], (f :: fs). reflexivity.
    + exists (c :: f), fs. reflexivity.
Qed.

Lemma get_new_filename_split (name : str) row col s :
  get_new_filename name row col = Ok s ->
  exists pre stem ext,
    split "."%char name = pre ++ [stem; ext]
    /\ split "."%char s = pre ++ [stem ++ panel_suffix row col; ext].
Proof.
  intros H.
  destruct (get_new_filename_Ok_dotted _ _ _ H) as [D _].
  apply dotted_split, last_two in D. destruct D as (pre & stem & ext & E).
  exists pre, stem, ext. split; [exact E|].
  rewrite (@get_new_filename_fields _ _ _ _ row col E) in H.
  injection H as <-.
  pose proof (split_fields_free "."%char name) as F. rewrite E in F.
  apply Forall_app in F. destruct F as [Fp Fl].
  apply Forall_cons_iff in Fl. destruct Fl as [Fs Fe].
  apply split_join; [destruct pre; discriminate|].
  apply Forall_app. split; auto. constructor; auto.
  rewrite in_app_iff. intros [?|Hx]; [tauto|].
  unfold panel_suffix, lit in Hx. simpl in Hx.
  pose proof (format_04d_chars row). pose proof (format_04d_chars col).
  rewrite in_app_iff in Hx. simpl in Hx. intuition discriminate.
Qed.

(** X8.  The new filename of a panel determines the filename of the page
    and both indices: two panels get the same filename only if they are the
    same cell of pages of the same filename. *)
Theorem new_filename_determines_page_and_cell
  (name1 name2 : str) row1 col1 row2 col2 s :
  get_new_filename name1 row1 col1 = Ok s ->
  get_new_filename name2 row2 col2 = Ok s ->
  name1 = name2 /\ row1 = row2 /\ col1 = col2.
Proof. apply get_new_filename_inj. Qed.

(** X9.  [get_new_filename] changes one field only: of the fields between
    the dots, the one before the last gets [_row_col] appended, four digits
    each at least, from which the indices read back; the other fields, and
    with them the extension, stay, so the panel of a page with a JPEG
    filename has a JPEG filename. *)
Theorem new_filename_keeps_extension (name : str) row col s :
  get_new_filename name row col = Ok s ->
  (exists pre stem ext,
     split "."%char name = pre ++ [stem; ext]
     /\ split "."%char s
        = pre ++ [stem ++ lit "_" ++ format_04d row
                       ++ lit "_" ++ format_04d col; ext])
  /\ parse_decimal (format_04d row) = Some row
  /\ parse_decimal (format_04d col) = Some col
  /\ 4 <= length (format_04d row) /\ 4 <= length (format_04d col)
  /\ jpeg_named s = jpeg_named name.
Proof.
  intros H. destruct (get_new_filename_split _ _ _ H)
    as (pre & stem & ext & E & E').
  split; [exists pre, stem, ext; split; assumption|].
  split; [apply parse_format_04d|]. split; [apply parse_format_04d|].
  assert (L : forall n, 4 <= length (format_04d n)).
  { intros n. unfold format_04d. rewrite length_app, repeat_length. lia. }
  split; [apply L|]. split; [apply L|].
  unfold jpeg_named. rewrite E, E'.
  change (pre ++ [stem; ext]) with (pre ++ [stem] ++ [ext]).
  change (pre ++ [stem ++ panel_suffix row col; ext])
    with (pre ++ [stem ++ panel_suffix row col] ++ [ext]).
  now rewrite !app_assoc, !getitem_last.
Qed.

Section SaveProperties.

Variable Pixel : Type.
Variable encode_jpeg : Image Pixel -> Bytes.
Implicit Types (img : Image Pixel) (page : ComicBookPage Pixel).

(** X10.  [ComicBookPage.save] goes by what follows the last dot of the
    filename, whatever its case: [JPG] and [JPEG] are encoded as JPEG, and
    anything else raises [ValueError] with the format in upper case.  A
    filename without a dot is taken whole as its format. *)
Theorem save_goes_by_the_last_field img (stem ext : str) :
  ~ In "."%char ext ->
  ComicBookPage_save encode_jpeg (mkPage img (stem ++ "."%char :: ext))
  = save_outcome encode_jpeg img ext
  /\ ComicBookPage_save encode_jpeg (mkPage img ext)
     = save_outcome encode_jpeg img ext.
Proof.
  intros Hext. unfold ComicBookPage_save, save_outcome. cbn [filename image].
  split.
  - destruct (@split_last_field "."%char stem ext Hext) as (f & fs & E).
    rewrite E.
    change (f :: fs ++ [ext]) with ((f :: fs) ++ [ext]).
    rewrite getitem_last. reflexivity.
  - rewrite split_free by exact Hext.
    change [ext] with ([] ++ [ext]). rewrite getitem_last. reflexivity.
Qed.

End SaveProperties.

(** ** The order of filenames *)

Lemma ascii_eqb_N (c d : ascii) :
  Ascii.eqb c d = N.eqb (N_of_ascii c) (N_of_ascii d).
Proof.
  destruct (Ascii.eqb_spec c d) as [->|Hne].
  - now rewrite N.eqb_refl.
  - symmetry. apply N.eqb_neq. intros E. apply Hne.
    now rewrite <- (ascii_N_embedding c), <- (ascii_N_embedding d), E.
Qed.

Lemma ascii_ltb_N (c d : ascii) :
  Ascii.ltb c d = N.ltb (N_of_ascii c) (N_of_ascii d).
Proof. reflexivity. Qed.

Lemma str_leb_trans (a b c : str) :
  str_leb a b = true -> str_leb b c = true -> str_leb a c = true.
Proof.
  revert b c. induction a as [|x a IH]; intros [|y b] [|z c]; simpl; auto;
    try discriminate.
  rewrite !ascii_eqb_N, !ascii_ltb_N.
  destruct (N.eqb_spec (N_of_ascii x) (N_of_ascii y)) as [Exy|Nxy];
    destruct (N.eqb_spec (N_of_ascii y) (N_of_ascii z)) as [Eyz|Nyz];
    destruct (N.eqb_spec (N_of_ascii x) (N_of_ascii z)) as [Exz|Nxz];
    rewrite ?N.ltb_lt; try lia; eauto.
Qed.

Lemma str_leb_antisym (a b : str) :
  str_leb a b = true -> str_leb b a = true -> a = b.
Proof.
  revert b. induction a as [|x a IH]; intros [|y b]; simpl; auto;
    try discriminate.
  rewrite (Ascii.eqb_sym y x), !ascii_eqb_N, !ascii_ltb_N.
  destruct (N.eqb_spec (N_of_ascii x) (N_of_ascii y)) as [Exy|Nxy].
  - intros H1 H2. f_equal; [|now apply IH].
    now rewrite <- (ascii_N_embedding x), <- (ascii_N_embedding y), Exy.
  - rewrite !N.ltb_lt. lia.
Qed.

Lemma sorted_unique (l1 : list str) : forall l2,
  StronglySorted (fun x y => str_leb x y = true) l1 ->
  StronglySorted (fun x y => str_leb x y = true) l2 ->
  Permutation l1 l2 -> l1 = l2.
Proof.
  induction l1 as [|a l1 IH]; intros l2 S1 S2 P.
  - apply Permutation_nil in P. now subst.
  - destruct l2 as [|b l2].
    + apply Permutation_sym, Permutation_nil in P. discriminate.
    + inversion S1 as [|? ? S1' F1]; subst.
      inversion S2 as [|? ? S2' F2]; subst.
      assert (E : a = b).
      { assert (Ha : In a (b :: l2))
          by (apply (Permutation_in _ P); now left).
        assert (Hb : In b (a :: l1))
          by (apply (Permutation_in _ (Permutation_sym P)); now left).
        destruct Ha as [->|Ha]; [reflexivity|].
        destruct Hb as [->|Hb]; [reflexivity|].
        apply str_leb_antisym.
        - apply (proj1 (Forall_forall _ _) F1 b Hb).
        - apply (proj1 (Forall_forall _ _) F2 a Ha). }
      subst b. f_equal. apply IH; auto.
      now apply Permutation_cons_inv in P.
Qed.

Lemma sorted_strongly (names : list str) :
  StronglySorted (fun x y => str_leb x y = true) (sorted names).
Proof.
  apply StrSort.StronglySorted_sort. intros x y z. apply str_leb_trans.
Qed.

(** [sorted] does not depend on the order of its argument. *)
Lemma sorted_Permutation (l l' : list str) :
  Permutation l l' -> sorted l = sorted l'.
Proof.
  intros P. apply sorted_unique; try apply sorted_strongly.
  eapply Permutation_trans; [apply Permutation_sym, sorted_spec|].
  eapply Permutation_trans; [exact P | apply sorted_spec].
Qed.

Lemma StronglySorted_filter {A} (R : A -> A -> Prop) (f : A -> bool)
  (l : list A) :
  StronglySorted R l -> StronglySorted R (filter f l).
Proof.
  induction 1 as [|a l S IH F]; cbn [filter]; [constructor|].
  destruct (f a); auto. constructor; auto.
  apply Forall_forall. intros x Hx. apply filter_In in Hx.
  apply (proj1 (Forall_forall _ _) F x). tauto.
Qed.

Lemma NoDup_filter {A} (f : A -> bool) (l : list A) :
  NoDup l -> NoDup (filter f l).
Proof.
  induction 1 as [|a l Ha N IH]; cbn [filter]; [constructor|].
  destruct (f a); auto. constructor; auto.
  intros Hin. apply filter_In in Hin. tauto.
Qed.

(** ** Entries of an archive *)

Lemma find_unique (n : str) (b : Bytes) (l : Archive) :
  NoDup (map fst l) -> In (n, b) l ->
  find (fun e => str_eqb (fst e) n) l = Some (n, b).
Proof.
  induction l as [|[m c] l IH]; intros N H; [contradiction|].
  cbn [map fst] in N. inversion N as [|? ? Hm N']; subst.
  cbn [find fst]. unfold str_eqb at 1.
  destruct (list_eq_dec ascii_dec m n) as [->|Hne].
  - destruct H as [E|H]; [congruence|].
    exfalso. apply Hm. apply in_map_iff. exists (n, b). auto.
  - destruct H as [E|H]; [congruence|]. now apply IH.
Qed.

Lemma find_absent (n : str) (l : Archive) :
  ~ In n (map fst l) -> find (fun e => str_eqb (fst e) n) l = None.
Proof.
  induction l as [|[m c] l IH]; intros H; [reflexivity|].
  cbn [find fst]. unfold str_eqb at 1. cbn [map fst In] in H.
  destruct (list_eq_dec ascii_dec m n) as [->|Hne]; [tauto|].
  apply IH. tauto.
Qed.

(** With distinct entry names, [read_entry] returns the content stored
    under the name. *)
Lemma read_entry_In (a : Archive) (n : str) (b : Bytes) :
  NoDup (namelist a) -> In (n, b) a -> read_entry a n = b.
Proof.
  intros N H. unfold read_entry. rewrite (@find_unique n b).
  - reflexivity.
  - rewrite map_rev. apply (Permutation_NoDup (Permutation_rev _)). exact N.
  - apply in_rev in H. exact H.
Qed.

Lemma read_entry_absent (a : Archive) (n : str) :
  ~ In n (namelist a) -> read_entry a n = [].
Proof.
  intros H. unfold read_entry. rewrite find_absent; [reflexivity|].
  rewrite map_rev, <- in_rev. exact H.
Qed.

Lemma read_entry_Permutation (a a' : Archive) (n : str) :
  Permutation a a' -> NoDup (namelist a) -> read_entry a n = read_entry a' n.
Proof.
  intros P N.
  assert (N' : NoDup (namelist a'))
    by (apply (Permutation_NoDup (Permutation_map fst P)); exact N).
  destruct (in_dec (list_eq_dec ascii_dec) n (namelist a)) as [Hin|Hout].
  - apply in_map_iff in Hin. destruct Hin as ([m b] & E & Hin).
    cbn [fst] in E. subst m.
    rewrite (@read_entry_In a n b N Hin). symmetry.
    apply read_entry_In; [exact N'|]. apply (Permutation_in _ P Hin).
  - rewrite read_entry_absent by exact Hout. symmetry.
    apply read_entry_absent. intros H. apply Hout.
    apply (Permutation_in _ (Permutation_sym (Permutation_map fst P)) H).
Qed.

Lemma mapM_In_raise {A B} (f : A -> result B) (l : list A) (a : A) (e : exn) :
  In a l -> f a = Raise e -> exists e', mapM f l = Raise e'.
Proof.
  induction l as [|x l IH]; intros Hin Ha; [contradiction|].
  cbn [mapM]. destruct (f x) as [b|ex] eqn:Ex; cbn [bind]; [|eauto].
  destruct Hin as [->|Hin]; [congruence|].
  destruct (IH Hin Ha) as [e' E]. rewrite E. cbn [bind]. eauto.
Qed.

Lemma mapM_raise_uniform {A B} (f : A -> result B) (l : list A) (e : exn) :
  Forall (fun a => (exists b, f a = Ok b) \/ f a = Raise e) l ->
  Exists (fun a => f a = Raise e) l ->
  mapM f l = Raise e.
Proof.
  induction 1 as [|x l Hx _ IH]; intros Hex; [inversion Hex|].
  cbn [mapM]. destruct Hx as [[b Hb]|Hx].
  - rewrite Hb. cbn [bind].
    inversion Hex as [? ? H|? ? H]; subst; [congruence|].
    now rewrite (IH H).
  - now rewrite Hx.
Qed.

(** ** Loading *)

Section LoadProperties.

Variable Pixel : Type.
Variable Opened : Type.
Variable Image_open : Bytes -> result Opened.
Variable convert_RGB : Opened -> result (Image Pixel).
Implicit Types (a : Archive) (name : str) (book : ComicBook Pixel) (fs : FS).

#[local] Abbreviation load := (load_entry Image_open convert_RGB).
#[local] Abbreviation from_archive :=
  (ComicBook_from_archive Image_open convert_RGB).
#[local] Abbreviation from_file :=
  (ComicBook_from_file Image_open convert_RGB).

(** X11.  The order of the entries in the archive does not matter: two
    archives with the same entries, under pairwise distinct names, load
    with the same outcome, and into the same book when they load. *)
Theorem loading_ignores_entry_order a a' fs :
  Permutation a a' ->
  NoDup (namelist a) ->
  from_file (ZipFile a) fs = from_file (ZipFile a') fs
  /\ from_file (RarFile a) fs = from_file (RarFile a') fs.
Proof.
  intros P N.
  assert (E : from_archive a = from_archive a').
  { unfold ComicBook_from_archive.
    assert (S : sorted (namelist a) = sorted (namelist a'))
      by (apply sorted_Permutation; unfold namelist;
          apply Permutation_map, P).
    rewrite <- S.
    rewrite (mapM_ext_Forall (load a) (load a') (l := sorted (namelist a)));
      [reflexivity|].
    apply Forall_forall. intros name _. unfold load_entry.
    now rewrite (read_entry_Permutation name P N). }
  split; exact E.
Qed.

(** X12.  The pages of a loaded book are in ascending order of filename,
    and their filenames are pairwise distinct when the entry names are. *)
Theorem loaded_pages_ascend a book fs :
  from_file (ZipFile a) fs = Ok book ->
  StronglySorted (fun x y => str_leb x y = true)
    (map (@filename Pixel) (pages book))
  /\ (NoDup (namelist a) -> NoDup (map (@filename Pixel) (pages book))).
Proof.
  intros H. apply from_archive_Ok in H. destruct H as [E _].
  rewrite E. split.
  - apply StronglySorted_filter, sorted_strongly.
  - intros N. apply NoDup_filter.
    apply (Permutation_NoDup (proj2 (sorted_spec _)) N).
Qed.

(** X13.  Only [UnidentifiedImageError] is forgiven: an entry that is not a
    directory and for which [Image.open] raises another exception, or whose
    conversion to RGB raises, makes the load raise. *)
Theorem other_exception_aborts_load a name fs (e : exn) :
  In name (namelist a) ->
  endswith name (lit "/") = false ->
  (Image_open (read_entry a name) = Raise e /\ e <> UnidentifiedImageError)
  \/ (exists opened,
        Image_open (read_entry a name) = Ok opened
        /\ convert_RGB opened = Raise e) ->
  exists e', from_file (ZipFile a) fs = Raise e'.
Proof.
  intros Hin Hdir He.
  assert (Hload : load a name = Raise e).
  { unfold load_entry, ComicBookPage_from_file. rewrite Hdir. cbn [negb].
    destruct He as [[Ho Hne]|(opened & Ho & Hc)]; rewrite Ho.
    - destruct e; try reflexivity. contradiction.
    - rewrite Hc. reflexivity. }
  cbn [ComicBook_from_file]. unfold ComicBook_from_archive.
  destruct (@mapM_In_raise _ _ (load a) (sorted (namelist a)) name e)
    as [e' E]; [|exact Hload|].
  - apply (Permutation_in _ (proj2 (sorted_spec _)) Hin).
  - rewrite E. cbn [bind]. eauto.
Qed.

End LoadProperties.

(** ** Saving *)

Lemma join_last sep (pre : list str) (f : str) :
  exists x, join sep (pre ++ [f]) = x ++ f.
Proof.
  induction pre as [|g pre [x IH]].
  - exists []. reflexivity.
  - exists (g ++ sep :: x). cbn [app join]. rewrite IH.
    destruct (pre ++ [f]) eqn:E; [now destruct pre|].
    now rewrite <- app_assoc.
Qed.

Lemma endswith_last (x : str) (c d : ascii) :
  c <> d -> endswith (x ++ [c]) [d] = false.
Proof.
  intros H. unfold endswith. rewrite length_app. cbn [length].
  replace (length x + 1 - 1) with (length x) by lia.
  rewrite skipn_app, skipn_all, Nat.sub_diag. cbn [app skipn].
  unfold str_eqb. destruct (list_eq_dec ascii_dec [c] [d]) as [E|]; auto.
  now injection E.
Qed.

(** A JPEG filename is not the name of a directory. *)
Lemma jpeg_named_not_directory (name : str) :
  jpeg_named name = true -> endswith name (lit "/") = false.
Proof.
  unfold jpeg_named. intros H.
  destruct (exists_last (@split_nonempty "."%char name)) as (pre & field & E).
  rewrite E, getitem_last in H.
  destruct (join_last "."%char pre field) as [x J].
  rewrite <- E, join_split in J.
  assert (L : exists f c, field = f ++ [c] /\ upper_char c = "G"%char).
  { apply Bool.orb_true_iff in H. unfold str_eqb in H.
    destruct H as [H|H];
      destruct (list_eq_dec ascii_dec _ _) as [U|]; try discriminate;
      unfold upper, lit in U; cbn in U.
    - destruct field as [|c1 [|c2 [|c3 [|]]]]; try discriminate.
      injection U as _ _ U. exists [c1; c2], c3. auto.
    - destruct field as [|c1 [|c2 [|c3 [|c4 [|]]]]]; try discriminate.
      injection U as _ _ _ U. exists [c1; c2; c3], c4. auto. }
  destruct L as (f & c & -> & U). rewrite J, app_assoc.
  apply endswith_last. intros ->. vm_compute in U. discriminate.
Qed.

(** An entry is read back as one of the entries written under its name. *)
Lemma read_entry_member (a : Archive) (n : str) :
  In n (namelist a) -> In (n, read_entry a n) a.
Proof.
  intros H. unfold read_entry.
  destruct (find (fun e => str_eqb (fst e) n) (rev a)) as [[m b]|] eqn:F.
  - apply find_some in F. destruct F as [Hin Heq]. cbn [fst snd] in *.
    unfold str_eqb in Heq.
    destruct (list_eq_dec ascii_dec m n) as [->|]; [|discriminate].
    now apply in_rev.
  - exfalso. unfold namelist in H. apply in_map_iff in H.
    destruct H as ([m b] & <- & Hin).
    apply in_rev in Hin. apply (find_none _ _ F) in Hin.
    cbn [fst] in Hin. unfold str_eqb in Hin.
    destruct (list_eq_dec ascii_dec m m); [discriminate|contradiction].
Qed.

Lemma filter_all {A} (f : A -> bool) (l : list A) :
  Forall (fun x => f x = true) l -> filter f l = l.
Proof.
  induction 1 as [|x l Hx _ IH]; cbn [filter]; [reflexivity|].
  now rewrite Hx, IH.
Qed.

Lemma fs_write_same (fs : FS) (p : str) v : fs_write fs p v p = Some v.
Proof.
  unfold fs_write, str_eqb.
  destruct (list_eq_dec ascii_dec p p); [reflexivity|contradiction].
Qed.

Lemma fs_write_other (fs : FS) (p q : str) v :
  q <> p -> fs_write fs p v q = fs q.
Proof.
  intros H. unfold fs_write, str_eqb.
  destruct (list_eq_dec ascii_dec q p); [contradiction|reflexivity].
Qed.

Section SaveBookProperties.

Variable Pixel : Type.
Variable Opened : Type.
Variable Image_open : Bytes -> result Opened.
Variable convert_RGB : Opened -> result (Image Pixel).
Variable encode_jpeg : Image Pixel -> Bytes.
Implicit Types (a : Archive) (name : str) (page : ComicBookPage Pixel)
  (book : ComicBook Pixel) (fs : FS).

#[local] Abbreviation entry_of :=
  (fun page : ComicBookPage Pixel =>
     (filename page, encode_jpeg (image page))).
#[local] Abbreviation jpeg_page :=
  (fun page : ComicBookPage Pixel => jpeg_named (filename page) = true).

Lemma decoded_load a name (img : Image Pixel) :
  endswith name (lit "/") = false ->
  decoded Image_open convert_RGB (read_entry a name) = Some img ->
  load_entry Image_open convert_RGB a name = Ok [mkPage img name].
Proof.
  unfold load_entry, ComicBookPage_from_file, decoded. intros -> H.
  cbn [negb].
  destruct (Image_open (read_entry a name)) as [opened|]; [|discriminate].
  destruct (convert_RGB opened); [|discriminate].
  injection H as ->. reflexivity.
Qed.

Lemma save_pages_stops (ps1 ps2 : list (ComicBookPage Pixel)) bad :
  forall a,
  Forall jpeg_page ps1 ->
  jpeg_named (filename bad) = false ->
  exists msg,
    save_pages encode_jpeg (ps1 ++ bad :: ps2) a
    = (a ++ map entry_of ps1 ++ [(filename bad, [])],
       Raise (ValueError msg)).
Proof.
  induction ps1 as [|page ps1 IH]; intros a H Hbad; cbn [app save_pages map].
  - destruct (page_save_other encode_jpeg bad Hbad) as [msg E].
    rewrite E. eauto.
  - inversion H as [|? ? Hpage Hps]; subst.
    rewrite page_save_jpeg by exact Hpage.
    destruct (IH (a ++ [entry_of page]) Hps Hbad) as [msg E].
    rewrite E, <- app_assoc. eauto.
Qed.

(** X14.  Saving through a [ZipFile] that writes appends one entry for each
    page, in the order of the pages and after the entries the archive
    holds, under the filename of the page and with its image encoded as
    JPEG, when every filename is a JPEG filename: the file behind the
    [ZipFile] is the archive of these entries once the [ZipFile] is closed,
    and every other file is as it was.  A [ZipFile] opened for reading
    refuses the first page with [ValueError], and nothing is written. *)
Theorem zip_save_appends_pages_in_order book a (p : str) fs :
  Forall jpeg_page (pages book) ->
  (let written := a ++ map entry_of (pages book) in
   exists fs',
     ComicBook_save encode_jpeg book (ZipFileW p a) fs
     = (fs', ZipFileW p written, Ok tt)
     /\ fs' p = Some (Zip, written)
     /\ forall q, q <> p -> fs' q = fs q)
  /\ (pages book <> [] ->
      ComicBook_save encode_jpeg book (ZipFile a) fs
      = (fs, ZipFile a,
         Raise (ValueError (lit "write() requires mode 'w', 'x', or 'a'")))).
Proof.
  intros H. split.
  - exists (fs_write fs p (Zip, a ++ map entry_of (pages book))).
    split; [|split].
    + cbn [ComicBook_save]. now rewrite save_pages_jpeg.
    + apply fs_write_same.
    + intros q Hq. now apply fs_write_other.
  - intros Hne. cbn [ComicBook_save].
    destruct (pages book); [contradiction|reflexivity].
Qed.

(** X15.  A page whose filename is not a JPEG filename ends the save with
    [ValueError], and the archive stays behind on disk unfinished: it holds
    the pages before that one, then an empty entry under the name of that
    page, and none of the pages after it. *)
Theorem failed_save_leaves_partial_archive book
  (ps1 ps2 : list (ComicBookPage Pixel)) bad (p : Path) fs :
  pages book = ps1 ++ bad :: ps2 ->
  Forall jpeg_page ps1 ->
  jpeg_named (filename bad) = false ->
  suffix p = lit ".cbz" ->
  exists msg,
    ComicBook_save encode_jpeg book (PathArg p) fs
    = (fs_write fs (path_str p)
         (Zip, map entry_of ps1 ++ [(filename bad, [])]),
       PathArg p, Raise (ValueError msg)).
Proof.
  intros E H Hbad Hp. unfold ComicBook_save. rewrite Hp, E.
  change (str_eqb (lit ".cbz") (lit ".cbr")) with false.
  change (str_eqb (lit ".cbz") (lit ".cbz")) with true. cbv iota.
  destruct (@save_pages_stops ps1 ps2 bad [] H Hbad) as [msg S].
  rewrite S. cbn [app]. eauto.
Qed.

(** X16.  A book saved to a [.cbz] path loads again from that path when the
    filenames are JPEG filenames and every encoded image decodes: the
    filenames of the book loaded are those of the book saved, sorted. *)
Theorem saved_book_loads_sorted book (p : Path) fs :
  suffix p = lit ".cbz" ->
  Forall jpeg_page (pages book) ->
  Forall (fun page =>
            exists img,
              decoded Image_open convert_RGB (encode_jpeg (image page))
              = Some img) (pages book) ->
  exists fs' book',
    ComicBook_save encode_jpeg book (PathArg p) fs = (fs', PathArg p, Ok tt)
    /\ ComicBook_from_file Image_open convert_RGB (PathArg p) fs' = Ok book'
    /\ map (@filename Pixel) (pages book')
       = sorted (map (@filename Pixel) (pages book)).
Proof.
  intros Hp Hjpeg Hdec.
  set (out := map entry_of (pages book)).
  assert (Hnames : namelist out = map (@filename Pixel) (pages book)).
  { unfold namelist, out. rewrite map_map. reflexivity. }
  assert (Hload : forall name, In name (namelist out) ->
            endswith name (lit "/") = false
            /\ exists img,
                 decoded Image_open convert_RGB (read_entry out name)
                 = Some img).
  { intros name Hin. pose proof (read_entry_member _ _ Hin) as M.
    unfold out in M. apply in_map_iff in M.
    destruct M as (page & Epage & Hpage).
    injection Epage as En Eb. split.
    - rewrite <- En. apply jpeg_named_not_directory.
      exact (proj1 (Forall_forall _ _) Hjpeg page Hpage).
    - fold out in Eb. rewrite <- Eb.
      exact (proj1 (Forall_forall _ _) Hdec page Hpage). }
  destruct (@from_archive_total _ _ Image_open convert_RGB out)
    as [book' E].
  { apply Forall_forall. intros name Hin.
    destruct (Hload name Hin) as (D & img & I).
    exists [mkPage img name]. now apply decoded_load. }
  exists (fs_write fs (path_str p) (Zip, out)), book'.
  split; [|split].
  - unfold ComicBook_save. rewrite Hp.
    change (str_eqb (lit ".cbz") (lit ".cbr")) with false.
    change (str_eqb (lit ".cbz") (lit ".cbz")) with true. cbv iota.
    now rewrite save_pages_jpeg.
  - unfold ComicBook_from_file, open_read. rewrite Hp.
    change (str_eqb (lit ".cbz") (lit ".cbr")) with false.
    change (str_eqb (lit ".cbz") (lit ".cbz")) with true. cbv iota.
    rewrite fs_write_same. exact E.
  - apply from_archive_Ok in E. destruct E as [E _].
    rewrite E, <- Hnames. apply filter_all, Forall_forall.
    intros name Hin.
    apply (Permutation_in _ (Permutation_sym (proj2 (sorted_spec _)))) in Hin.
    destruct (Hload name Hin) as (D & img & I).
    unfold loadable. now rewrite D, I.
Qed.

End SaveBookProperties.

(** ** Splitting a book *)

Lemma get_new_filename_jpeg (name : str) row col s :
  get_new_filename name row col = Ok s -> jpeg_named s = jpeg_named name.
Proof.
  intros H. destruct (get_new_filename_split _ _ _ H)
    as (pre & stem & ext & E & E').
  unfold jpeg_named. rewrite E, E'.
  change (pre ++ [stem; ext]) with (pre ++ [stem] ++ [ext]).
  change (pre ++ [stem ++ panel_suffix row col; ext])
    with (pre ++ [stem ++ panel_suffix row col] ++ [ext]).
  now rewrite !app_assoc, !getitem_last.
Qed.

Section SplitBookProperties.

Variable Pixel : Type.
Variable luma : Pixel -> Z.
Implicit Types (page : ComicBookPage Pixel) (book : ComicBook Pixel).

#[local] Abbreviation decoded_page :=
  (fun page : ComicBookPage Pixel => wf_image (image page)).
#[local] Abbreviation has_panel :=
  (fun page : ComicBookPage Pixel =>
     cells (panel_grid luma (image page)) <> []).

Lemma dotted_dec (name : str) : {dotted name} + {~ dotted name}.
Proof. apply (in_dec ascii_dec). Qed.

Lemma page_split_outcome page :
  wf_image (image page) ->
  (exists out, ComicBookPage_split_panels luma page = Ok out)
  \/ ComicBookPage_split_panels luma page = Raise IndexError.
Proof.
  intros Hwf. destruct (dotted_dec (filename page)) as [D|D].
  - left. now apply split_panels_total.
  - rewrite (split_panels_undotted luma page Hwf D).
    destruct (cells _); eauto.
Qed.

Lemma split_keeps_jpeg (ps : list (ComicBookPage Pixel)) : forall outs,
  mapM (ComicBookPage_split_panels luma) ps = Ok outs ->
  Forall (fun page => jpeg_named (filename page) = true) ps ->
  Forall (fun page => jpeg_named (filename page) = true) (concat outs).
Proof.
  induction ps as [|page ps IH]; intros outs H Hj.
  - injection H as <-. constructor.
  - cbn [mapM] in H.
    destruct (ComicBookPage_split_panels luma page) as [out|] eqn:E;
      cbn [bind] in H; [|discriminate].
    destruct (mapM _ ps) as [outs'|] eqn:E'; cbn [bind] in H; [|discriminate].
    injection H as <-. cbn [concat].
    inversion Hj as [|? ? Hpage Hps]; subst.
    apply Forall_app. split; [|now apply IH].
    destruct (@page_keys _ luma page out E) as (keys & F & _).
    apply (@Forall2_Forall_r _ _ _ _ _ _ F). intros p k _ Hn.
    unfold named in Hn.
    now rewrite (get_new_filename_jpeg _ _ _ Hn).
Qed.

(** X17.  Splitting a book of decoded pages either returns or raises
    [IndexError]: it returns when every page that has a panel has a dot in
    its filename, and raises [IndexError] when some page has a panel and no
    dot in its filename; a page without a panel never matters. *)
Theorem book_split_returns_or_raises_IndexError book :
  Forall decoded_page (pages book) ->
  (Forall (fun page => has_panel page -> dotted (filename page))
     (pages book) ->
   exists book', ComicBook_split_panels luma book = Ok book')
  /\ (Exists (fun page => has_panel page /\ ~ dotted (filename page))
        (pages book) ->
      ComicBook_split_panels luma book = Raise IndexError).
Proof.
  intros Hwf. unfold ComicBook_split_panels. split.
  - intros H.
    destruct (mapM_Ok_exists (ComicBookPage_split_panels luma)
                (l := pages book)) as [outs E].
    + apply Forall_forall. intros page Hin.
      pose proof (proj1 (Forall_forall _ _) Hwf page Hin) as W.
      pose proof (proj1 (Forall_forall _ _) H page Hin) as D.
      cbn beta in W, D.
      destruct (dotted_dec (filename page)) as [Y|N].
      * now apply split_panels_total.
      * rewrite (split_panels_undotted luma page W N).
        destruct (cells _) eqn:C; [eauto|].
        exfalso. apply N, D. discriminate.
    + rewrite E. cbn [bind]. eauto.
  - intros H.
    rewrite (@mapM_raise_uniform _ _ (ComicBookPage_split_panels luma)
               (pages book) IndexError); [reflexivity| |].
    + eapply Forall_impl; [|exact Hwf]. cbn beta. intros page W.
      destruct (page_split_outcome page W); auto.
    + apply Exists_exists in H. destruct H as (page & Hin & P & N).
      apply Exists_exists. exists page. split; [exact Hin|].
      pose proof (proj1 (Forall_forall _ _) Hwf page Hin) as W.
      cbn beta in W.
      rewrite (split_panels_undotted luma page W N).
      destruct (cells _); [contradiction|reflexivity].
Qed.

(** X18.  Splitting keeps the format of the files: the pages of the split
    book of a book of JPEG filenames have JPEG filenames, so that the split
    book is saved to a zip archive without an exception, one entry a
    panel: the loop of [save] appends them, in order, to the entries the
    archive holds, and saving to a [.cbz] path writes the archive of
    them. *)
Theorem split_book_is_saved_whole book book'
  (encode_jpeg : Image Pixel -> Bytes) (a : Archive) (output : Path)
  (fs : FS) :
  Forall (fun page => jpeg_named (filename page) = true) (pages book) ->
  ComicBook_split_panels luma book = Ok book' ->
  let panels := map (fun page => (filename page, encode_jpeg (image page)))
                  (pages book') in
  Forall (fun page => jpeg_named (filename page) = true) (pages book')
  /\ save_pages encode_jpeg (pages book') a = (a ++ panels, Ok tt)
  /\ (suffix output = lit ".cbz" ->
      ComicBook_save encode_jpeg book' (PathArg output) fs
      = (fs_write fs (path_str output) (Zip, panels), PathArg output, Ok tt)).
Proof.
  intros Hj H panels. subst panels. unfold ComicBook_split_panels in H.
  destruct (mapM (ComicBookPage_split_panels luma) (pages book))
    as [outs|] eqn:E; cbn [bind] in H; [|discriminate].
  injection H as <-. cbn [pages].
  pose proof (split_keeps_jpeg E Hj) as J.
  split; [exact J|]. split.
  - now apply save_pages_jpeg.
  - intros Hout. unfold ComicBook_save. rewrite Hout.
    change (str_eqb (lit ".cbz") (lit ".cbr")) with false.
    change (str_eqb (lit ".cbz") (lit ".cbz")) with true. cbv iota.
    cbn [pages]. now rewrite save_pages_jpeg.
Qed.

End SplitBookProperties.

(** ** The program *)

Section MainProperties.

Variable Pixel : Type.
Variable luma : Pixel -> Z.
Variable Opened : Type.
Variable Image_open : Bytes -> result Opened.
Variable convert_RGB : Opened -> result (Image Pixel).
Variable encode_jpeg : Image Pixel -> Bytes.
Implicit Types (a : Archive) (name : str) (page : ComicBookPage Pixel)
  (book : ComicBook Pixel) (fs : FS).

#[local] Abbreviation run := (main luma Image_open convert_RGB encode_jpeg).
#[local] Abbreviation load_book :=
  (ComicBook_from_file Image_open convert_RGB).

(** X19.  A run over an archive whose entries load, and whose images have
    pixels and are stored under JPEG filenames with a dot, returns without
    an exception and writes to the output path a zip archive that holds
    the panels of the split book, one entry each and in order. *)
Theorem main_writes_the_split_book (input output : Path) (k : container)
  a fs :
  fs (path_str input) = Some (k, a) ->
  suffix input = lit (match k with Rar => ".cbr" | Zip => ".cbz" end) ->
  suffix output = lit ".cbz" ->
  Forall (harmless Image_open convert_RGB a) (namelist a) ->
  (forall name img,
     In name (namelist a) ->
     endswith name (lit "/") = false ->
     decoded Image_open convert_RGB (read_entry a name) = Some img ->
     wf_image img /\ dotted name /\ jpeg_named name = true) ->
  exists book panels,
    load_book (PathArg input) fs = Ok book
    /\ ComicBook_split_panels luma book = Ok panels
    /\ run input output fs
       = (fs_write fs (path_str output)
            (Zip, map (fun page => (filename page, encode_jpeg (image page)))
                    (pages panels)),
          Ok tt).
Proof.
  intros Hfs Hin Hout Hharmless Hpages.
  destruct (from_archive_total Hharmless) as [book E].
  assert (L : load_book (PathArg input) fs = Ok book).
  { unfold ComicBook_from_file, open_read. rewrite Hin, Hfs.
    destruct k; exact E. }
  apply from_archive_Ok in E. destruct E as [_ E].
  assert (P : forall page, In page (pages book) ->
            wf_image (image page) /\ dotted (filename page)
            /\ jpeg_named (filename page) = true).
  { intros page Hpage. apply E in Hpage.
    destruct Hpage as (N & D & I). now apply Hpages. }
  destruct (mapM_Ok_exists (ComicBookPage_split_panels luma)
              (l := pages book)) as [outs S].
  { apply Forall_forall. intros page Hpage.
    destruct (P page Hpage) as (W & D & _).
    now apply split_panels_total. }
  exists book, (mkBook (concat outs)).
  assert (S' : ComicBook_split_panels luma book = Ok (mkBook (concat outs))).
  { unfold ComicBook_split_panels. now rewrite S. }
  split; [exact L|]. split; [exact S'|].
  unfold main. rewrite L, S'. unfold ComicBook_save. rewrite Hout.
  change (str_eqb (lit ".cbz") (lit ".cbr")) with false.
  change (str_eqb (lit ".cbz") (lit ".cbz")) with true. cbv iota.
  cbn [pages]. rewrite save_pages_jpeg; [reflexivity|].
  apply (@split_keeps_jpeg _ luma _ _ S), Forall_forall.
  intros page Hpage. now apply P.
Qed.

(** X20.  A run changes no file but the one at the output path, and that
    one only after the input has been loaded and split: an exception of the
    load or of the split ends the run with that exception and with every
    file as it was. *)
Theorem main_touches_only_the_output (input output : Path) fs :
  (forall q, q <> path_str output -> fst (run input output fs) q = fs q)
  /\ (forall e,
        load_book (PathArg input) fs = Raise e ->
        run input output fs = (fs, Raise e))
  /\ (forall book e,
        load_book (PathArg input) fs = Ok book ->
        ComicBook_split_panels luma book = Raise e ->
        run input output fs = (fs, Raise e)).
Proof.
  split; [|split].
  - intros q Hq. unfold main.
    destruct (load_book (PathArg input) fs) as [book|]; [|reflexivity].
    destruct (ComicBook_split_panels luma book) as [panels|]; [|reflexivity].
    unfold ComicBook_save.
    destruct (str_eqb (suffix output) (lit ".cbr")); [reflexivity|].
    destruct (str_eqb (suffix output) (lit ".cbz")); [|reflexivity].
    destruct (save_pages encode_jpeg (pages panels) []) as [out r].
    cbn [fst]. now apply fs_write_other.
  - intros e L. unfold main. now rewrite L.
  - intros book e L S. unfold main. now rewrite L, S.
Qed.

(** X21.  The extension of the output path is looked at last.  After the
    input has been loaded and split, an output path ending in [.cbr] ends
    the run with [NotImplementedError], and one with any extension other
    than [.cbr] and [.cbz] ends it without an exception; in both cases
    nothing is written. *)
Theorem main_output_extension_is_checked_last (input output : Path) fs
  book panels :
  load_book (PathArg input) fs = Ok book ->
  ComicBook_split_panels luma book = Ok panels ->
  (suffix output = lit ".cbr" ->
   run input output fs = (fs, Raise NotImplementedError))
  /\ (suffix output <> lit ".cbr" -> suffix output <> lit ".cbz" ->
      run input output fs = (fs, Ok tt)).
Proof.
  intros L S. unfold main. rewrite L, S. split.
  - intros H. unfold ComicBook_save. rewrite H. reflexivity.
  - intros Hr Hz. now rewrite save_unknown_suffix.
Qed.

End MainProperties.

(** ** The edges of the bands *)

Lemma scan_bands_edges (flag : nat -> bool) n : forall y p,
  p = 0 \/ flag p = true ->
  (forall b, In b (snd (scan_bands (map flag (seq y n)) y p)) ->
             (fst b = 0 \/ flag (fst b) = true) /\ flag (snd b) = true)
  /\ (fst (scan_bands (map flag (seq y n)) y p) = 0
      \/ flag (fst (scan_bands (map flag (seq y n)) y p)) = true).
Proof.
  induction n as [|n IH]; intros y p Hp; cbn [seq map scan_bands].
  - cbn [fst snd]. split; [contradiction|exact Hp].
  - destruct (flag y) eqn:Fy.
    + destruct (IH (S y) y) as [IH1 IH2]; [now right|].
      destruct (scan_bands (map flag (seq (S y) n)) (S y) y) as [p' bands].
      cbn [fst snd] in *. split; [|exact IH2].
      intros b Hb.
      destruct (PANEL_WIDTH_THRESHOLD <=? y - p); [|now apply IH1].
      destruct Hb as [<-|Hb]; [|now apply IH1].
      cbn [fst snd]. auto.
    + now apply IH.
Qed.

Section BandEdges.

Variable Pixel : Type.
Variable luma : Pixel -> Z.
Implicit Types (img : Image Pixel).

(** X22.  On a page that is not sparse every band begins at the top of the
    page or at a blank row, and that blank row is its first row; it ends at
    the bottom of the page or right above a blank row.  So a panel below a
    gap carries the last row of the gap on top, and none of it below. *)
Theorem bands_begin_at_a_blank_row img :
  wf_image img ->
  sparse luma img = false ->
  exists bands,
    split_into_rows luma img
    = Ok (map (fun b => crop img (0, fst b, size_w img, snd b)) bands)
    /\ Forall (fun b =>
         (fst b = 0 \/ blank_at luma img (fst b) = true)
         /\ (snd b = size_h img \/ blank_at luma img (snd b) = true)) bands.
Proof.
  intros Hwf Hs. exists (row_bands luma img).
  split; [now apply split_into_rows_spec|].
  unfold row_bands. rewrite Hs, flags_as_map.
  destruct (@scan_bands_edges (blank_at luma img) (size_h img) 0 0)
    as [H1 H2]; [now left|].
  destruct (scan_bands (map (blank_at luma img) (seq 0 (size_h img))) 0 0)
    as [p bands]. cbn [fst snd] in *.
  assert (F : Forall (fun b =>
              (fst b = 0 \/ blank_at luma img (fst b) = true)
              /\ (snd b = size_h img \/ blank_at luma img (snd b) = true))
              bands).
  { apply Forall_forall. intros b Hb. destruct (H1 b Hb). auto. }
  destruct (PANEL_WIDTH_THRESHOLD <=? size_h img - p); [|exact F].
  apply Forall_app. split; [exact F|].
  constructor; [|constructor]. cbn [fst snd]. auto.
Qed.

End BandEdges.

(** ** Instances of the further properties *)

Lemma wf_sheet : wf_image sheet.
Proof. by_computation. Qed.

Lemma wf_two_bands : wf_image two_bands.
Proof. by_computation. Qed.

Lemma wf_quad : wf_image quad.
Proof. by_computation. Qed.

Lemma quad_page_split :
  ComicBookPage_split_panels luma_rgb quad_page = Ok quad_split.
Proof. vm_compute. reflexivity. Qed.

Lemma sample_names_distinct : NoDup (namelist sample_archive).
Proof.
  repeat constructor; simpl; intuition discriminate.
Qed.

Lemma blank_iff_sum_witness :
  blank luma_rgb 2 [WHITE; BLACK]
  = (235 * 2 <=? row_sum luma_rgb [WHITE; BLACK])%Z.
Proof. apply (@blank_iff_sum RGB luma_rgb 2 [WHITE; BLACK]). lia. Defined.

Lemma sparse_page_comes_back_whole_witness :
  (2 * size_h sheet < 5 * num_blank luma_rgb sheet ->
   split_into_rows luma_rgb sheet = Ok [sheet])
  /\ (5 * num_blank luma_rgb sheet <= 2 * size_h sheet ->
      split_into_rows luma_rgb sheet
      = Ok (map (row_crop sheet)
              (let '(p, bands) :=
                 scan_bands (map is_white (row_means luma_rgb sheet)) 0 0 in
               if PANEL_WIDTH_THRESHOLD <=? size_h sheet - p
               then bands ++ [(p, size_h sheet)] else bands))).
Proof.
  apply (@sparse_page_comes_back_whole RGB luma_rgb sheet). exact wf_sheet.
Defined.

Lemma bands_are_thick_runs_between_blank_rows_witness :
  exists bands,
    split_into_rows luma_rgb two_bands
    = Ok (map (fun b => crop two_bands (0, fst b, size_w two_bands, snd b))
            bands)
    /\ ascending (size_h two_bands) bands
    /\ Forall (fun b => PANEL_WIDTH_THRESHOLD <= snd b - fst b) bands
    /\ forall b i, In b bands -> fst b < i < snd b ->
                   blank_at luma_rgb two_bands i = false.
Proof.
  apply (@bands_are_thick_runs_between_blank_rows RGB luma_rgb two_bands).
  - exact wf_two_bands.
  - vm_compute. reflexivity.
Defined.

Lemma uncut_image_whole_or_nothing_witness :
  split_into_rows luma_rgb tile = Ok [tile].
Proof.
  apply (@uncut_image_whole_or_nothing RGB luma_rgb tile).
  - exact wf_tile.
  - by_computation.
Defined.

Lemma columns_are_crops_left_to_right_witness :
  exists bands,
    split_into_cols luma_rgb quad
    = Ok (map (fun b => crop quad (fst b, 0, snd b, size_h quad)) bands)
    /\ ascending (size_w quad) bands
    /\ (sparse luma_rgb (ROTATE_270 quad) = true ->
        split_into_cols luma_rgb quad = Ok [quad])
    /\ (sparse luma_rgb (ROTATE_270 quad) = false ->
        Forall (fun b => PANEL_WIDTH_THRESHOLD <= snd b - fst b) bands).
Proof.
  apply (@columns_are_crops_left_to_right RGB luma_rgb quad). exact wf_quad.
Defined.

Lemma panels_are_never_slivers_witness :
  Forall (fun p =>
    wf_image (image p)
    /\ 30 <= size_w (image p) <= 70
    /\ 30 <= size_h (image p) <= 70) quad_split.
Proof.
  apply (@panels_are_never_slivers RGB luma_rgb quad_page quad_split).
  - exact wf_quad.
  - exact quad_page_split.
Defined.

Lemma new_filename_determines_page_and_cell_witness :
  lit "a.b.jpg" = lit "a.b.jpg" /\ 1 = 1 /\ 2 = 2.
Proof.
  apply (@new_filename_determines_page_and_cell
           (lit "a.b.jpg") (lit "a.b.jpg") 1 2 1 2 (lit "a.b_0001_0002.jpg"));
    reflexivity.
Defined.

Lemma new_filename_keeps_extension_witness :
  (exists pre stem ext,
     split "."%char (lit "vol.1.page.JPG") = pre ++ [stem; ext]
     /\ split "."%char (lit "vol.1.page_0003_0012.JPG")
        = pre ++ [stem ++ lit "_" ++ format_04d 3
                       ++ lit "_" ++ format_04d 12; ext])
  /\ parse_decimal (format_04d 3) = Some 3
  /\ parse_decimal (format_04d 12) = Some 12
  /\ 4 <= length (format_04d 3) /\ 4 <= length (format_04d 12)
  /\ jpeg_named (lit "vol.1.page_0003_0012.JPG")
     = jpeg_named (lit "vol.1.page.JPG").
Proof.
  apply (@new_filename_keeps_extension (lit "vol.1.page.JPG") 3 12
           (lit "vol.1.page_0003_0012.JPG")).
  vm_compute. reflexivity.
Defined.

Lemma save_goes_by_the_last_field_witness :
  ComicBookPage_save column_encode (mkPage tile (lit "a.tar.JpG"))
  = save_outcome column_encode tile (lit "JpG")
  /\ ComicBookPage_save column_encode (mkPage tile (lit "JpG"))
     = save_outcome column_encode tile (lit "JpG").
Proof.
  apply (@save_goes_by_the_last_field RGB column_encode tile
           (lit "a.tar") (lit "JpG")).
  simpl. intuition discriminate.
Defined.

Lemma loading_ignores_entry_order_witness :
  ComicBook_from_file column_open column_convert (ZipFile sample_archive)
    sample_fs
  = ComicBook_from_file column_open column_convert
      (ZipFile [(lit "a.txt", []); (lit "b.jpg", [Byte.x01; Byte.x02])])
      sample_fs
  /\ ComicBook_from_file column_open column_convert (RarFile sample_archive)
       sample_fs
     = ComicBook_from_file column_open column_convert
         (RarFile [(lit "a.txt", []); (lit "b.jpg", [Byte.x01; Byte.x02])])
         sample_fs.
Proof.
  apply (@loading_ignores_entry_order RGB Bytes column_open column_convert
           sample_archive
           [(lit "a.txt", []); (lit "b.jpg", [Byte.x01; Byte.x02])]
           sample_fs).
  - apply perm_swap.
  - exact sample_names_distinct.
Defined.

Lemma loaded_pages_ascend_witness :
  let book := mkBook [mkPage (mkImage 30 (repeat (repeat (grey Byte.x00) 30) 30
                                           ++ repeat (repeat (grey Byte.xff) 30) 30
                                           ++ repeat (repeat (grey Byte.x00) 30) 30))
                        (lit "p1.jpg");
                      mkPage (mkImage 30 (repeat (repeat (grey Byte.x00) 30) 30))
                        (lit "p2.jpg")] in
  StronglySorted (fun x y => str_leb x y = true)
    (map (@filename RGB) (pages book))
  /\ (NoDup (namelist comic_archive) ->
      NoDup (map (@filename RGB) (pages book))).
Proof.
  apply (@loaded_pages_ascend RGB Bytes column_open tiles_convert
           comic_archive _ comic_fs).
  vm_compute. reflexivity.
Defined.

Lemma other_exception_aborts_load_witness :
  exists e',
    ComicBook_from_file column_open strict_convert
      (ZipFile [(lit "a.jpg", [Byte.x01]); (lit "c.jpg", [Byte.x00])])
      sample_fs
    = Raise e'.
Proof.
  apply (@other_exception_aborts_load RGB Bytes column_open strict_convert
           [(lit "a.jpg", [Byte.x01]); (lit "c.jpg", [Byte.x00])]
           (lit "c.jpg") sample_fs
           (OSError (lit "image file is truncated"))).
  - simpl. auto.
  - reflexivity.
  - right. exists [Byte.x00]. split; reflexivity.
Defined.

Lemma zip_save_appends_pages_in_order_witness :
  (let written :=
     sample_archive
     ++ map (fun page => (filename page, column_encode (image page)))
          (pages pair_book) in
   exists fs',
     ComicBook_save column_encode pair_book
       (ZipFileW (lit "in.cbz") sample_archive) sample_fs
     = (fs', ZipFileW (lit "in.cbz") written, Ok tt)
     /\ fs' (lit "in.cbz") = Some (Zip, written)
     /\ forall q, q <> lit "in.cbz" -> fs' q = sample_fs q)
  /\ (pages pair_book <> [] ->
      ComicBook_save column_encode pair_book (ZipFile sample_archive)
        sample_fs
      = (sample_fs, ZipFile sample_archive,
         Raise (ValueError (lit "write() requires mode 'w', 'x', or 'a'")))).
Proof.
  apply (@zip_save_appends_pages_in_order RGB column_encode pair_book
           sample_archive (lit "in.cbz") sample_fs).
  by_computation.
Defined.

Lemma failed_save_leaves_partial_archive_witness :
  exists msg,
    ComicBook_save column_encode mixed_book (PathArg out_cbz) sample_fs
    = (fs_write sample_fs (path_str out_cbz)
         (Zip, map (fun page => (filename page, column_encode (image page)))
                 [mkPage tile (lit "a.jpg")]
               ++ [(lit "a.png", [])]),
       PathArg out_cbz, Raise (ValueError msg)).
Proof.
  apply (@failed_save_leaves_partial_archive RGB column_encode mixed_book
           [mkPage tile (lit "a.jpg")] [mkPage tile (lit "b.jpg")]
           (mkPage tile (lit "a.png")) out_cbz sample_fs).
  - reflexivity.
  - by_computation.
  - reflexivity.
  - reflexivity.
Defined.

Lemma saved_book_loads_sorted_witness :
  let book := mkBook [mkPage tile (lit "b.jpg"); mkPage tile (lit "a.jpg")] in
  exists fs' book',
    ComicBook_save column_encode book (PathArg out_cbz) sample_fs
    = (fs', PathArg out_cbz, Ok tt)
    /\ ComicBook_from_file column_open column_convert (PathArg out_cbz) fs'
       = Ok book'
    /\ map (@filename RGB) (pages book')
       = sorted [lit "b.jpg"; lit "a.jpg"].
Proof.
  apply (@saved_book_loads_sorted RGB Bytes column_open column_convert
           column_encode
           (mkBook [mkPage tile (lit "b.jpg"); mkPage tile (lit "a.jpg")])
           out_cbz sample_fs).
  - reflexivity.
  - by_computation.
  - repeat constructor; eexists; vm_compute; reflexivity.
Defined.

Lemma book_split_returns_or_raises_IndexError_witness :
  let book := mkBook [mkPage tile (lit "a.jpg"); mkPage tile (lit "cover")] in
  (Forall (fun page =>
             cells (panel_grid luma_rgb (image page)) <> [] ->
             dotted (filename page)) (pages book) ->
   exists book', ComicBook_split_panels luma_rgb book = Ok book')
  /\ (Exists (fun page =>
                cells (panel_grid luma_rgb (image page)) <> []
                /\ ~ dotted (filename page)) (pages book) ->
      ComicBook_split_panels luma_rgb book = Raise IndexError).
Proof.
  apply (@book_split_returns_or_raises_IndexError RGB luma_rgb
           (mkBook [mkPage tile (lit "a.jpg"); mkPage tile (lit "cover")])).
  repeat constructor; exact wf_tile.
Defined.

Lemma split_book_is_saved_whole_witness :
  let panels := map (fun page => (filename page, column_encode (image page)))
                  (pages pair_split) in
  Forall (fun page => jpeg_named (filename page) = true) (pages pair_split)
  /\ save_pages column_encode (pages pair_split) sample_archive
     = (sample_archive ++ panels, Ok tt)
  /\ (suffix out_cbz = lit ".cbz" ->
      ComicBook_save column_encode pair_split (PathArg out_cbz) sample_fs
      = (fs_write sample_fs (path_str out_cbz) (Zip, panels),
         PathArg out_cbz, Ok tt)).
Proof.
  apply (@split_book_is_saved_whole RGB luma_rgb pair_book pair_split
           column_encode sample_archive out_cbz sample_fs).
  - by_computation.
  - vm_compute. reflexivity.
Defined.

Lemma main_writes_the_split_book_witness :
  exists book panels,
    ComicBook_from_file column_open tiles_convert (PathArg comic_cbr) comic_fs
    = Ok book
    /\ ComicBook_split_panels luma_rgb book = Ok panels
    /\ main luma_rgb column_open tiles_convert tiles_encode
         comic_cbr out_cbz comic_fs
       = (fs_write comic_fs (path_str out_cbz)
            (Zip, map (fun page => (filename page, tiles_encode (image page)))
                    (pages panels)),
          Ok tt).
Proof.
  apply (@main_writes_the_split_book RGB luma_rgb Bytes column_open
           tiles_convert tiles_encode comic_cbr out_cbz Rar comic_archive
           comic_fs).
  - reflexivity.
  - reflexivity.
  - reflexivity.
  - repeat constructor; eexists; vm_compute; reflexivity.
  - intros name img Hin D I.
    destruct Hin as [<-|[<-|[<-|[]]]].
    + vm_compute in I. injection I as <-.
      split; [by_computation|]. split; [|reflexivity].
      unfold dotted. simpl. auto.
    + vm_compute in I. injection I as <-.
      split; [by_computation|]. split; [|reflexivity].
      unfold dotted. simpl. auto.
    + vm_compute in D. discriminate.
Defined.

Lemma main_output_extension_is_checked_last_witness :
  (suffix out_zip = lit ".cbr" ->
   main luma_rgb column_open column_convert column_encode
     in_cbz out_zip sample_fs
   = (sample_fs, Raise NotImplementedError))
  /\ (suffix out_zip <> lit ".cbr" -> suffix out_zip <> lit ".cbz" ->
      main luma_rgb column_open column_convert column_encode
        in_cbz out_zip sample_fs
      = (sample_fs, Ok tt)).
Proof.
  apply (@main_output_extension_is_checked_last RGB luma_rgb Bytes
           column_open column_convert column_encode in_cbz out_zip sample_fs
           (mkBook [mkPage (mkImage 1 [[grey Byte.x01]; [grey Byte.x02]])
                      (lit "b.jpg")])
           (mkBook [])).
  - vm_compute. reflexivity.
  - vm_compute. reflexivity.
Defined.

(** A run on the sample comic: the page [p1.jpg] gives two panels, the
    second of which starts at the last blank row above it, and the page
    [p2.jpg] one. *)
Lemma sample_run :
  let '(fs', r) := main luma_rgb column_open tiles_convert tiles_encode
                     comic_cbr out_cbz comic_fs in
  r = Ok tt
  /\ fs' (lit "comic.cbr") = comic_fs (lit "comic.cbr")
  /\ option_map (fun f => (fst f, namelist (snd f))) (fs' (lit "out.cbz"))
     = Some (Zip, [lit "p1_0000_0000.jpg"; lit "p1_0001_0000.jpg";
                   lit "p2_0000_0000.jpg"]).
Proof. vm_compute. repeat split. Qed.

Lemma bands_begin_at_a_blank_row_witness :
  exists bands,
    split_into_rows luma_rgb two_bands
    = Ok (map (fun b => crop two_bands (0, fst b, size_w two_bands, snd b))
            bands)
    /\ Forall (fun b =>
         (fst b = 0 \/ blank_at luma_rgb two_bands (fst b) = true)
         /\ (snd b = size_h two_bands
             \/ blank_at luma_rgb two_bands (snd b) = true)) bands.
Proof.
  apply (@bands_begin_at_a_blank_row RGB luma_rgb two_bands).
  - exact wf_two_bands.
  - vm_compute. reflexivity.
Defined.
